(** * UpChunk: chunked, resumable upload of a growing byte source

    A shallow embedding of the [UpChunk] class (the TypeScript part of
    [src/example/script.js], lines 127-453) and the properties of its
    chunk selection, request framing, retry bookkeeping and pause gate.

    Conventions of the embedding.
    - A [Blob] is the list of its bytes; [blob_size] is its [size] and
      [blob_slice] is [slice] as the File API has it (clamping, negative
      offsets).
    - The object's private and public fields are the record [UpChunk];
      fields that start out [undefined] in the class are options.
    - JavaScript is single threaded: every callback runs to completion.
      What is scheduled for later (promise reactions, timers, requests)
      is kept in [pending]; the environment decides what runs next
      through an [Input].  Promise reactions that follow one another
      without any other code in between are run in one step.
    - Numbers held in fields are integers ([Z]).  A number that need not
      be an integer is a [JsNumber], whose finite values are rationals.
      The [chunkSize] of the attempt event and the percentage that
      follows a successful chunk are computed exactly: on the integers
      that occur there (below 2^53) a division by 1024 is exact in
      binary64, and IEEE division followed by [Math.round] agrees with
      the exact quotient.  The percentage of the [onprogress] handler is
      not rounded to an integer by the class, so there the quotient and
      the product are each rounded to the nearest binary64 value
      ([binary64]), as the IEEE operations do. *)

From Stdlib Require Import QArith Qabs Qpower Qround Lqa.
From stdpp Require Import gmap strings list pretty.

Open Scope Z_scope.

(** ** JavaScript numbers that are not integers *)

Inductive JsNumber :=
| Finite (q : Q)
| NaN
| Infinity (negative : bool).

(** [a / b] on two integers. *)
Definition js_div (a b : Z) : JsNumber :=
  if b =? 0 then
    if a =? 0 then NaN else Infinity (a <? 0)
  else Finite (Qred (inject_Z a / inject_Z b)).

(** [x * k] for an integer constant [k]. *)
Definition js_mul (x : JsNumber) (k : Z) : JsNumber :=
  match x with
  | Finite q => Finite (Qred (q * inject_Z k))
  | NaN => NaN
  | Infinity s => if k =? 0 then NaN else Infinity (xorb s (k <? 0))
  end.

(** [Math.round]: the nearest integer, halves towards +Infinity. *)
Definition Math_round (x : JsNumber) : JsNumber :=
  match x with
  | Finite q => Finite (inject_Z (Qfloor (q + (1 # 2))))
  | other => other
  end.

(** The integer nearest to [q], halves to the even neighbour. *)
Definition round_half_even (q : Q) : Z :=
  let f := Qfloor q in
  match (q - inject_Z f ?= 1 # 2)%Q with
  | Lt => f
  | Gt => f + 1
  | Eq => if Z.even f then f else f + 1
  end.

(** The exponent [e] of the binary64 value nearest to a positive [a]:
    [2^52 <= a / 2^e < 2^53]. *)
Definition binary64_exponent (a : Q) : Z :=
  let e0 := Z.log2 (Qnum a) - Z.log2 (Zpos (Qden a)) - 52 in
  if Qle_bool (inject_Z (2 ^ 52)) (a / Qpower 2 e0) then e0 else e0 - 1.

(** The binary64 value nearest to [q], ties to even: [m * 2^e] with a
    significand [m] of 53 bits.  The exponent range is not modelled; the
    quotients and products of [onprogress] on integers below 2^53 are
    within it. *)
Definition binary64 (q : Q) : Q :=
  if Qnum q =? 0 then 0%Q
  else
    let a := Qabs q in
    let e := binary64_exponent a in
    let m := round_half_even (a / Qpower 2 e) in
    Qred (inject_Z (Z.sgn (Qnum q) * m) * Qpower 2 e).

(** [a / b] and [x * k] as the IEEE operations compute them. *)
Definition js_div_double (a b : Z) : JsNumber :=
  match js_div a b with
  | Finite q => Finite (binary64 q)
  | other => other
  end.

Definition js_mul_double (x : JsNumber) (k : Z) : JsNumber :=
  match js_mul x k with
  | Finite q => Finite (binary64 q)
  | other => other
  end.

Arguments binary64 : simpl never.
Arguments js_div_double : simpl never.
Arguments js_mul_double : simpl never.

(** ** Blobs *)

Definition Blob := list Byte.byte.

Definition blob_size (b : Blob) : Z := Z.of_nat (length b).

(** [b.slice(start, end)] *)
Definition blob_slice (b : Blob) (start end_ : Z) : Blob :=
  let size := blob_size b in
  let relativeStart := if start <? 0 then Z.max (size + start) 0 else Z.min start size in
  let relativeEnd := if end_ <? 0 then Z.max (size + end_) 0 else Z.min end_ size in
  let span := Z.max (relativeEnd - relativeStart) 0 in
  take (Z.to_nat span) (drop (Z.to_nat relativeStart) b).

(** A blob of [n] zero bytes, for examples. *)
Definition zeros (n : Z) : Blob := repeat Byte.x00 (Z.to_nat n).

(** ** Constants and options *)

Definition SUCCESSFUL_CHUNK_UPLOAD_CODES : list Z := [200; 201; 202; 204; 308].
Definition TEMPORARY_ERROR_CODES : list Z := [408; 502; 503; 504].

Definition includes (l : list Z) (x : Z) : bool := existsb (Z.eqb x) l.

Definition MIN_CHUNK_SIZE : Z := 256 * 1024.

Inductive Endpoint :=
| EndpointString (s : string)
| EndpointFunction.

(** The options of [createUpload].  The numeric options are integers
    here; the class itself accepts any number for them. *)
Record IOptions := {
  opt_endpoint : Endpoint;
  opt_headers : option (gmap string string);
  opt_maxChunkSize : option Z;
  opt_attempts : option Z;
  opt_delayBeforeAttempt : option Z
}.

(** [x || d] on an optional number: [undefined] and [0] are falsy. *)
Definition or_default (x : option Z) (d : Z) : Z :=
  match x with
  | Some v => if v =? 0 then d else v
  | None => d
  end.

(** ** The object *)

Record UpChunk := {
  endpoint : Endpoint;
  headers : gmap string string;
  maxChunkSize : Z;
  attempts : Z;
  delayBeforeAttempt : Z;
  chunk : option Blob;
  chunkCount : Z;
  maxChunkByteSize : Z;
  endpointValue : option string;
  attemptCount : Z;
  offline : bool;
  paused : bool;
  blob : option Blob;
  allChunksReceived : bool;
  lastIndex : Z
}.

Definition set_chunk (v : option Blob) (o : UpChunk) : UpChunk :=
  {| endpoint := endpoint o; headers := headers o; maxChunkSize := maxChunkSize o;
     attempts := attempts o; delayBeforeAttempt := delayBeforeAttempt o;
     chunk := v; chunkCount := chunkCount o; maxChunkByteSize := maxChunkByteSize o;
     endpointValue := endpointValue o; attemptCount := attemptCount o;
     offline := offline o; paused := paused o; blob := blob o;
     allChunksReceived := allChunksReceived o; lastIndex := lastIndex o |}.

Definition set_chunkCount (v : Z) (o : UpChunk) : UpChunk :=
  {| endpoint := endpoint o; headers := headers o; maxChunkSize := maxChunkSize o;
     attempts := attempts o; delayBeforeAttempt := delayBeforeAttempt o;
     chunk := chunk o; chunkCount := v; maxChunkByteSize := maxChunkByteSize o;
     endpointValue := endpointValue o; attemptCount := attemptCount o;
     offline := offline o; paused := paused o; blob := blob o;
     allChunksReceived := allChunksReceived o; lastIndex := lastIndex o |}.

Definition set_endpointValue (v : option string) (o : UpChunk) : UpChunk :=
  {| endpoint := endpoint o; headers := headers o; maxChunkSize := maxChunkSize o;
     attempts := attempts o; delayBeforeAttempt := delayBeforeAttempt o;
     chunk := chunk o; chunkCount := chunkCount o; maxChunkByteSize := maxChunkByteSize o;
     endpointValue := v; attemptCount := attemptCount o;
     offline := offline o; paused := paused o; blob := blob o;
     allChunksReceived := allChunksReceived o; lastIndex := lastIndex o |}.

Definition set_attemptCount (v : Z) (o : UpChunk) : UpChunk :=
  {| endpoint := endpoint o; headers := headers o; maxChunkSize := maxChunkSize o;
     attempts := attempts o; delayBeforeAttempt := delayBeforeAttempt o;
     chunk := chunk o; chunkCount := chunkCount o; maxChunkByteSize := maxChunkByteSize o;
     endpointValue := endpointValue o; attemptCount := v;
     offline := offline o; paused := paused o; blob := blob o;
     allChunksReceived := allChunksReceived o; lastIndex := lastIndex o |}.

Definition set_offline (v : bool) (o : UpChunk) : UpChunk :=
  {| endpoint := endpoint o; headers := headers o; maxChunkSize := maxChunkSize o;
     attempts := attempts o; delayBeforeAttempt := delayBeforeAttempt o;
     chunk := chunk o; chunkCount := chunkCount o; maxChunkByteSize := maxChunkByteSize o;
     endpointValue := endpointValue o; attemptCount := attemptCount o;
     offline := v; paused := paused o; blob := blob o;
     allChunksReceived := allChunksReceived o; lastIndex := lastIndex o |}.

Definition set_paused (v : bool) (o : UpChunk) : UpChunk :=
  {| endpoint := endpoint o; headers := headers o; maxChunkSize := maxChunkSize o;
     attempts := attempts o; delayBeforeAttempt := delayBeforeAttempt o;
     chunk := chunk o; chunkCount := chunkCount o; maxChunkByteSize := maxChunkByteSize o;
     endpointValue := endpointValue o; attemptCount := attemptCount o;
     offline := offline o; paused := v; blob := blob o;
     allChunksReceived := allChunksReceived o; lastIndex := lastIndex o |}.

Definition set_blob (v : option Blob) (o : UpChunk) : UpChunk :=
  {| endpoint := endpoint o; headers := headers o; maxChunkSize := maxChunkSize o;
     attempts := attempts o; delayBeforeAttempt := delayBeforeAttempt o;
     chunk := chunk o; chunkCount := chunkCount o; maxChunkByteSize := maxChunkByteSize o;
     endpointValue := endpointValue o; attemptCount := attemptCount o;
     offline := offline o; paused := paused o; blob := v;
     allChunksReceived := allChunksReceived o; lastIndex := lastIndex o |}.

Definition set_allChunksReceived (v : bool) (o : UpChunk) : UpChunk :=
  {| endpoint := endpoint o; headers := headers o; maxChunkSize := maxChunkSize o;
     attempts := attempts o; delayBeforeAttempt := delayBeforeAttempt o;
     chunk := chunk o; chunkCount := chunkCount o; maxChunkByteSize := maxChunkByteSize o;
     endpointValue := endpointValue o; attemptCount := attemptCount o;
     offline := offline o; paused := paused o; blob := blob o;
     allChunksReceived := v; lastIndex := lastIndex o |}.

Definition set_lastIndex (v : Z) (o : UpChunk) : UpChunk :=
  {| endpoint := endpoint o; headers := headers o; maxChunkSize := maxChunkSize o;
     attempts := attempts o; delayBeforeAttempt := delayBeforeAttempt o;
     chunk := chunk o; chunkCount := chunkCount o; maxChunkByteSize := maxChunkByteSize o;
     endpointValue := endpointValue o; attemptCount := attemptCount o;
     offline := offline o; paused := paused o; blob := blob o;
     allChunksReceived := allChunksReceived o; lastIndex := v |}.

(** ** Events, requests and what is scheduled *)

Inductive Event :=
| attempt (chunkNumber : Z) (chunkSize : JsNumber)
| attemptFailure (message : string) (chunkNumber attemptsLeft : Z)
| error_noMoreRetries (message : string) (chunk_ attempts_ : Z)
| error_status (message : string) (chunkNumber attempts_ : Z)
| ev_offline
| ev_online
| progress (percent : JsNumber)
| success.

Record XhrUrlConfig := {
  xhr_headers : gmap string string;
  url : option string;
  method : string;
  body : Blob
}.

Inductive XhrResult :=
| Response (statusCode : Z)
| Failure.

Inductive Task :=
| reaction_sendChunks
| endpoint_pending
| timeout_checkAndResolve (ms : Z)
| timeout_sendChunks (ms : Z)
| xhr_request (options : XhrUrlConfig).

Record World := {
  this : UpChunk;
  dispatched : list Event;
  pending : list Task;
  requests : list XhrUrlConfig;
  window : bool
}.

Definition with_this (f : UpChunk -> UpChunk) (w : World) : World :=
  {| this := f (this w); dispatched := dispatched w; pending := pending w;
     requests := requests w; window := window w |}.

(** [this.dispatch(eventName, detail)] *)
Definition dispatch (e : Event) (w : World) : World :=
  {| this := this w; dispatched := dispatched w ++ [e]; pending := pending w;
     requests := requests w; window := window w |}.

Definition schedule (t : Task) (w : World) : World :=
  {| this := this w; dispatched := dispatched w; pending := pending w ++ [t];
     requests := requests w; window := window w |}.

Definition unschedule (i : nat) (w : World) : World :=
  {| this := this w; dispatched := dispatched w; pending := delete i (pending w);
     requests := requests w; window := window w |}.

(** [xhr(options, callback)]: the request leaves and is outstanding. *)
Definition xhr (options : XhrUrlConfig) (w : World) : World :=
  {| this := this w; dispatched := dispatched w;
     pending := pending w ++ [xhr_request options];
     requests := requests w ++ [options]; window := window w |}.

(** ** Construction *)

Inductive TypeError := mkTypeError (message : string).

(** [validateOptions]: [None] when nothing is thrown. *)
Definition validateOptions (o : UpChunk) : option TypeError :=
  if match endpoint o with EndpointString s => bool_decide (s = "") | EndpointFunction => false end
  then Some (mkTypeError
    "endpoint must be defined as a string or a function that returns a promise")
  else if negb (maxChunkSize o =? 0)
          && ((maxChunkSize o <=? 0) || negb (Z.rem (maxChunkSize o) 256 =? 0))
  then Some (mkTypeError "chunkSize must be a positive number in multiples of 256")
  else if negb (attempts o =? 0) && (attempts o <=? 0)
  then Some (mkTypeError "retries must be a positive number")
  else if negb (delayBeforeAttempt o =? 0) && (delayBeforeAttempt o <? 0)
  then Some (mkTypeError "delayBeforeAttempt must be a positive number")
  else None.

(** The fields as the constructor assigns them, before validation. *)
Definition initial_fields (options : IOptions) : UpChunk :=
  let maxChunkSize := or_default (opt_maxChunkSize options) 5120 in
  {| endpoint := opt_endpoint options;
     headers := default ∅ (opt_headers options);
     maxChunkSize := maxChunkSize;
     attempts := or_default (opt_attempts options) 5;
     delayBeforeAttempt := or_default (opt_delayBeforeAttempt options) 1;
     chunk := None;
     chunkCount := 0;
     maxChunkByteSize := maxChunkSize * 1024;
     endpointValue := None;
     attemptCount := 0;
     offline := false;
     paused := false;
     blob := None;
     allChunksReceived := false;
     lastIndex := 0 |}.

(** [getEndpoint().then(() => this.sendChunks())]: a literal endpoint is
    stored at once and the reaction is queued; a function endpoint is
    called and its promise is awaited. *)
Definition getEndpoint_then (w : World) : World :=
  match endpoint (this w) with
  | EndpointString s =>
      schedule reaction_sendChunks (with_this (set_endpointValue (Some s)) w)
  | EndpointFunction => schedule endpoint_pending w
  end.

(** [new UpChunk(options)]; [hasWindow] tells whether [window] is defined,
    in which case the online and offline listeners are installed. *)
Definition constructor (hasWindow : bool) (options : IOptions) : TypeError + World :=
  let o := initial_fields options in
  match validateOptions o with
  | Some e => inl e
  | None =>
      inr (getEndpoint_then
             {| this := o; dispatched := []; pending := []; requests := [];
                window := hasWindow |})
  end.

(** ** Producer-facing methods *)

Definition addChunk (c : Blob) (o : UpChunk) : UpChunk :=
  match blob o with
  | Some b => set_blob (Some (b ++ c)) o
  | None => set_blob (Some c) o
  end.

Definition finish (o : UpChunk) : UpChunk := set_allChunksReceived true o.

Definition pause (o : UpChunk) : UpChunk := set_paused true o.

(** ** Chunk selection *)

Definition nearestMultiple (size : Z) : Z := MIN_CHUNK_SIZE * (size / MIN_CHUNK_SIZE).

(** One run of [checkAndResolve] inside [getChunk]: [Some] is the object
    with [this.chunk] assigned when the promise is resolved, [None] when
    the timer is armed again. *)
Definition checkAndResolve (o : UpChunk) : option UpChunk :=
  match blob o with
  | None => None
  | Some b =>
      let remainingSize := blob_size b - lastIndex o in
      if allChunksReceived o && (remainingSize <? MIN_CHUNK_SIZE) then
        Some (set_chunk (Some (blob_slice b (lastIndex o) (lastIndex o + remainingSize))) o)
      else if MIN_CHUNK_SIZE <=? remainingSize then
        let size :=
          if maxChunkByteSize o <=? remainingSize then maxChunkByteSize o
          else nearestMultiple remainingSize in
        Some (set_chunk (Some (blob_slice b (lastIndex o) (lastIndex o + size))) o)
      else None
  end.

(** [getChunk()]: the executor arms the first timer. *)
Definition getChunk (w : World) : World := schedule (timeout_checkAndResolve 1000) w.

(** ** Sending one chunk *)

(** The [Content-Range] value built by [sendChunk]; [None] when reading
    [this.chunk.size] or [this.blob.size] raises a TypeError. *)
Definition contentRange (o : UpChunk) : option string :=
  c ← chunk o;
  let rangeStart := lastIndex o in
  let rangeEnd := rangeStart + blob_size c - 1 in
  fileSize ← (if allChunksReceived o then (b ← blob o; Some (pretty (blob_size b)))
              else Some "*");
  Some ("bytes " +:+ pretty rangeStart +:+ "-" +:+ pretty rangeEnd +:+ "/" +:+ fileSize).

(** A callback either returns or raises after the effects recorded in
    the world it carries. *)
Inductive Completion :=
| Normal (w : World)
| Abrupt (w : World).

Definition sendChunk (w : World) : Completion :=
  let o := this w in
  match chunk o, contentRange o with
  | Some c, Some range =>
      let headers :=
        <["Content-Range" := range]>
          (<["Content-Type" := "application/octet-stream"]> (headers o)) in
      let w := dispatch (attempt (chunkCount o) (js_div (blob_size c) 1024)) w in
      Normal (xhr {| xhr_headers := headers; url := endpointValue o;
                     method := "PUT"; body := c |} w)
  | _, _ => Abrupt w
  end.

(** The [onprogress] handler installed by [xhrPromise]:
    [((this.lastIndex + event.loaded) / this.blob.size) * 100], each
    operation rounded to binary64. *)
Definition onprogress (loaded : Z) (w : World) : World :=
  match blob (this w) with
  | Some b =>
      dispatch (progress (js_mul_double
                            (js_div_double (lastIndex (this w) + loaded) (blob_size b)) 100)) w
  | None => w
  end.

(** ** Retries and the send loop *)

Definition gate_closed (o : UpChunk) : bool := paused o || offline o.

(** [sendChunks()] up to the point where it waits for [getChunk]. *)
Definition sendChunks (w : World) : World :=
  if gate_closed (this w) then w else getChunk w.

Definition manageRetries (w : World) : World :=
  let o := this w in
  if attemptCount o <? attempts o then
    let w := with_this (set_attemptCount (attemptCount o + 1)) w in
    let w := schedule (timeout_sendChunks (delayBeforeAttempt o * 1000)) w in
    let o := this w in
    dispatch (attemptFailure
                ("An error occured uploading chunk " +:+ pretty (chunkCount o) +:+ ". "
                 +:+ pretty (attempts o - attemptCount o) +:+ " retries left.")
                (chunkCount o) (attempts o - attemptCount o)) w
  else
    dispatch (error_noMoreRetries
                ("An error occured uploading chunk " +:+ pretty (chunkCount o)
                 +:+ ". No more retries, stopping upload")
                (chunkCount o) (attemptCount o)) w.

(** [Math.round(this.lastIndex / this.blob.size) * 100] *)
Definition percentProgress (lastIndex size : Z) : JsNumber :=
  js_mul (Math_round (js_div lastIndex size)) 100.

(** The [.then((res) => ...)] callback of [sendChunks]. *)
Definition onFulfilled (statusCode : Z) (w : World) : Completion :=
  if includes SUCCESSFUL_CHUNK_UPLOAD_CODES statusCode then
    let w := with_this (fun o => set_chunkCount (chunkCount o + 1) o) w in
    match chunk (this w) with
    | None => Abrupt w
    | Some c =>
        let w := with_this (fun o => set_lastIndex (lastIndex o + blob_size c) o) w in
        match blob (this w) with
        | None => Abrupt (if allChunksReceived (this w) then w else sendChunks w)
        | Some b =>
            let w :=
              if allChunksReceived (this w) && (blob_size b <=? lastIndex (this w))
              then dispatch success w
              else sendChunks w in
            Normal (dispatch (progress (percentProgress (lastIndex (this w)) (blob_size b))) w)
        end
    end
  else if includes TEMPORARY_ERROR_CODES statusCode then
    if gate_closed (this w) then Normal w else Normal (manageRetries w)
  else
    if gate_closed (this w) then Normal w
    else Normal (dispatch (error_status
                   ("Server responded with " +:+ pretty statusCode +:+ ". Stopping upload.")
                   (chunkCount (this w)) (attemptCount (this w))) w).

(** The [.catch((err) => ...)] callback of [sendChunks]. *)
Definition onRejected (w : World) : World :=
  if gate_closed (this w) then w else manageRetries w.

Definition caught (c : Completion) : World :=
  match c with
  | Normal w => w
  | Abrupt w => onRejected w
  end.

(** A timer of [getChunk] fires: wait again, or resolve and run
    [sendChunk] (raising there goes to the catch callback). *)
Definition timer_checkAndResolve (w : World) : World :=
  match checkAndResolve (this w) with
  | None => schedule (timeout_checkAndResolve 1000) w
  | Some o => caught (sendChunk (with_this (fun _ => o) w))
  end.

(** The outstanding request settles. *)
Definition settle (r : XhrResult) (w : World) : World :=
  match r with
  | Response statusCode => caught (onFulfilled statusCode w)
  | Failure => onRejected w
  end.

Definition resume (w : World) : World :=
  if paused (this w) then sendChunks (with_this (set_paused false) w) else w.

(** The listeners the constructor installs on [window]. *)
Definition on_window_online (w : World) : World :=
  if negb (offline (this w)) then w
  else sendChunks (dispatch ev_online (with_this (set_offline false) w)).

Definition on_window_offline (w : World) : World :=
  dispatch ev_offline (with_this (set_offline true) w).

(** ** The environment *)

Inductive Input :=
| call_addChunk (c : Blob)
| call_finish
| call_pause
| call_resume
| window_online
| window_offline
| endpoint_resolves (i : nat) (value : string)
| run_reaction (i : nat)
| timer_fires (i : nat)
| upload_progress (i : nat) (loaded : Z)
| request_settles (i : nat) (r : XhrResult).

(** One turn of the event loop; [None] when the input names something
    that is not scheduled. *)
Definition step (w : World) (i : Input) : option World :=
  match i with
  | call_addChunk c => Some (with_this (addChunk c) w)
  | call_finish => Some (with_this finish w)
  | call_pause => Some (with_this pause w)
  | call_resume => Some (resume w)
  | window_online => if window w then Some (on_window_online w) else None
  | window_offline => if window w then Some (on_window_offline w) else None
  | endpoint_resolves k value =>
      match pending w !! k with
      | Some endpoint_pending =>
          Some (sendChunks (with_this (set_endpointValue (Some value)) (unschedule k w)))
      | _ => None
      end
  | run_reaction k =>
      match pending w !! k with
      | Some reaction_sendChunks => Some (sendChunks (unschedule k w))
      | _ => None
      end
  | timer_fires k =>
      match pending w !! k with
      | Some (timeout_checkAndResolve _) => Some (timer_checkAndResolve (unschedule k w))
      | Some (timeout_sendChunks _) => Some (sendChunks (unschedule k w))
      | _ => None
      end
  | upload_progress k loaded =>
      match pending w !! k with
      | Some (xhr_request _) => Some (onprogress loaded w)
      | _ => None
      end
  | request_settles k r =>
      match pending w !! k with
      | Some (xhr_request _) => Some (settle r (unschedule k w))
      | _ => None
      end
  end.

Fixpoint run (w : World) (inputs : list Input) : option World :=
  match inputs with
  | [] => Some w
  | i :: rest =>
      match step w i with
      | Some w' => run w' rest
      | None => None
      end
  end.

(** [createUpload(options)] in a browser, followed by [inputs]. *)
Definition createUpload_then (options : IOptions) (inputs : list Input) : option World :=
  match constructor true options with
  | inl _ => None
  | inr w => run w inputs
  end.

(** ** Example sessions *)

Definition example_options (maxChunkSize attempts : Z) : IOptions :=
  {| opt_endpoint := EndpointString "https://storage.example/upload";
     opt_headers := None;
     opt_maxChunkSize := Some maxChunkSize;
     opt_attempts := Some attempts;
     opt_delayBeforeAttempt := None |}.

(** A 600 KiB file added in one piece and finished at once; the first
    chunk is sent. *)
Definition file_600KiB_first_request : list Input :=
  [run_reaction 0%nat; call_addChunk (zeros 614400); call_finish; timer_fires 0%nat].

(** The same, and the first chunk is answered with 200. *)
Definition file_600KiB_first_response : list Input :=
  file_600KiB_first_request ++ [request_settles 0%nat (Response 200)].

(** 256 KiB and one byte: the first chunk fails twice with 503 and is
    then accepted; the second chunk fails once. *)
Definition second_chunk_fails_once : list Input :=
  [run_reaction 0%nat; call_addChunk (zeros 262145); call_finish;
   timer_fires 0%nat; request_settles 0%nat (Response 503);
   timer_fires 0%nat; timer_fires 0%nat; request_settles 0%nat (Response 503);
   timer_fires 0%nat; timer_fires 0%nat; request_settles 0%nat (Response 200);
   timer_fires 0%nat; request_settles 0%nat (Response 503)].

(** A recording that has 300 KiB when the first chunk fails and 600 KiB
    when it is retried. *)
Definition grows_before_retry : list Input :=
  [run_reaction 0%nat; call_addChunk (zeros 307200);
   timer_fires 0%nat; request_settles 0%nat (Response 503);
   call_addChunk (zeros 307200);
   timer_fires 0%nat; timer_fires 0%nat].

(** [pause()] while the engine waits for data, with nothing in flight. *)
Definition paused_while_waiting : list Input := [run_reaction 0%nat; call_pause].

(** ... then 256 KiB arrive and the waiting timer fires. *)
Definition data_arrives_while_paused : list Input :=
  paused_while_waiting ++ [call_addChunk (zeros 262144); timer_fires 0%nat].

(** Exactly 256 KiB are recorded and uploaded before [finish()]. *)
Definition finished_on_a_chunk_boundary : list Input :=
  [run_reaction 0%nat; call_addChunk (zeros 262144);
   timer_fires 0%nat; request_settles 0%nat (Response 200);
   call_finish; timer_fires 0%nat].

(** The same 256 KiB, but [finish()] is called while their request is
    still in flight. *)
Definition finished_before_the_last_answer : list Input :=
  [run_reaction 0%nat; call_addChunk (zeros 262144);
   timer_fires 0%nat; call_finish; request_settles 0%nat (Response 200)].

Definition three_bytes : Blob := [Byte.x01; Byte.x02; Byte.x03].

(** A three byte file, finished, ready to be selected. *)
Definition small_file_ready : list Input :=
  [run_reaction 0%nat; call_addChunk three_bytes; call_finish].

(** ... its only chunk is in flight when [pause()] is called. *)
Definition small_file_paused_in_flight : list Input :=
  small_file_ready ++ [timer_fires 0%nat; call_pause].

(** Options with a header of the caller. *)
Definition options_with_authorization : IOptions :=
  {| opt_endpoint := EndpointString "https://storage.example/upload";
     opt_headers := Some {["Authorization" := "Bearer t"]};
     opt_maxChunkSize := None; opt_attempts := None;
     opt_delayBeforeAttempt := None |}.

(** What the examples look at in a request. *)
Definition content_range (r : XhrUrlConfig) : option string :=
  xhr_headers r !! "Content-Range".

(** ** Observing a session *)

Definition is_attempt (e : Event) : bool :=
  match e with attempt _ _ => true | _ => false end.

Definition is_attemptFailure (e : Event) : bool :=
  match e with attemptFailure _ _ _ => true | _ => false end.

Definition count_events (p : Event -> bool) (l : list Event) : nat :=
  length (List.filter p l).

(** The two inputs that call [sendChunks] from outside the loop. *)
Definition reenters_loop (i : Input) : bool :=
  match i with
  | call_resume | window_online => true
  | _ => false
  end.

(** The request in flight settles with [r], the retry timer fires and the
    timer of [getChunk] fires. *)
Definition fail_and_retry (r : XhrResult) : list Input :=
  [request_settles 0%nat r; timer_fires 0%nat; timer_fires 0%nat].

Fixpoint repeat_inputs (n : nat) (inputs : list Input) : list Input :=
  match n with
  | O => []
  | S n' => inputs ++ repeat_inputs n' inputs
  end.

(** The request [sendChunk] builds from the fields as they are. *)
Definition request_of (o : UpChunk) : option XhrUrlConfig :=
  c ← chunk o;
  range ← contentRange o;
  Some {| xhr_headers :=
            <["Content-Range" := range]>
              (<["Content-Type" := "application/octet-stream"]> (headers o));
          url := endpointValue o; method := "PUT"; body := c |}.

(** What holds of a session in which the loop is never entered from
    outside: one thing is scheduled at most, the cursor lies inside the
    source, and the body of a request in flight is the stored chunk, which
    is the bytes of the source that start at the cursor. *)
Definition single_loop (w : World) : Prop :=
  (length (pending w) <= 1)%nat /\
  0 <= lastIndex (this w) /\
  match blob (this w) with
  | None => lastIndex (this w) = 0
  | Some b => lastIndex (this w) <= blob_size b
  end /\
  forall r, pending w = [xhr_request r] ->
    exists c b, chunk (this w) = Some c /\ blob (this w) = Some b /\
                lastIndex (this w) + blob_size c <= blob_size b /\
                body r = c /\
                c = blob_slice b (lastIndex (this w)) (lastIndex (this w) + blob_size c).

(** What [sendChunk] puts into a request, given the headers and the
    endpoint value of the object. *)
Definition built_by_sendChunk (hs : gmap string string) (u : option string)
    (r : XhrUrlConfig) : Prop :=
  url r = u /\
  method r = "PUT" /\
  xhr_headers r !! "Content-Type" = Some "application/octet-stream" /\
  is_Some (xhr_headers r !! "Content-Range") /\
  forall name,
    name <> "Content-Range" -> name <> "Content-Type" ->
    xhr_headers r !! name = hs !! name.

(** ** Proof automation *)

Ltac unfold_handlers :=
  unfold timer_checkAndResolve, settle, caught, onFulfilled, sendChunk, contentRange,
    onRejected, resume, on_window_online, on_window_offline, onprogress, manageRetries,
    sendChunks, getChunk, xhr, dispatch, schedule, unschedule, with_this, addChunk,
    finish, pause in *.

Ltac step_cases H :=
  unfold step in H;
  repeat (case_match; try discriminate);
  injection H as <-;
  unfold_handlers; simpl;
  repeat (case_match; simpl in *; try discriminate; simplify_eq).

(** Facts about a session are read off by evaluation, one by one. *)
Ltac evaluate_session :=
  intros; repeat apply conj; vm_compute; first [reflexivity | discriminate].

(** * Properties *)

(** ** Blobs and numbers *)

Lemma blob_size_nonneg (b : Blob) : 0 <= blob_size b.
Proof. unfold blob_size. lia. Qed.

Lemma blob_size_app (b c : Blob) : blob_size (b ++ c) = blob_size b + blob_size c.
Proof. unfold blob_size. rewrite length_app. lia. Qed.

Lemma blob_size_zeros (n : Z) : 0 <= n -> blob_size (zeros n) = n.
Proof. intros Hn. unfold blob_size, zeros. rewrite repeat_length. lia. Qed.

Lemma blob_slice_size (b : Blob) (s e : Z) :
  0 <= s -> s <= e -> e <= blob_size b -> blob_size (blob_slice b s e) = e - s.
Proof.
  intros Hs Hse He. unfold blob_slice.
  destruct (Z.ltb_spec s 0) as [?|_]; [lia|].
  destruct (Z.ltb_spec e 0) as [?|_]; [lia|].
  unfold blob_size in *. rewrite length_take, length_drop. lia.
Qed.

Lemma blob_slice_empty (b : Blob) (s : Z) : blob_slice b s s = [].
Proof.
  unfold blob_slice.
  replace (Z.max _ 0) with 0; [reflexivity|].
  destruct (Z.ltb_spec s 0); lia.
Qed.

(** Bytes appended later do not change a slice that ends inside the
    blob as it was. *)
Lemma blob_slice_app (b extra : Blob) (s e : Z) :
  0 <= s -> s <= e -> e <= blob_size b ->
  blob_slice (b ++ extra) s e = blob_slice b s e.
Proof.
  intros Hs Hse He. unfold blob_slice. rewrite blob_size_app.
  pose proof (blob_size_nonneg extra) as Hx.
  destruct (Z.ltb_spec s 0) as [?|_]; [lia|].
  destruct (Z.ltb_spec e 0) as [?|_]; [lia|].
  replace (Z.min s (blob_size b + blob_size extra)) with s by lia.
  replace (Z.min e (blob_size b + blob_size extra)) with e by lia.
  replace (Z.min s (blob_size b)) with s by lia.
  replace (Z.min e (blob_size b)) with e by lia.
  unfold blob_size in He.
  rewrite drop_app_le by lia.
  rewrite take_app_le; [reflexivity|].
  rewrite length_drop. lia.
Qed.

Lemma js_div_finite (a b : Z) :
  b <> 0 -> exists q, js_div a b = Finite q /\ (q * inject_Z b == inject_Z a)%Q.
Proof.
  intros Hb. unfold js_div.
  destruct (Z.eqb_spec b 0) as [?|_]; [contradiction|].
  eexists; split; [reflexivity|].
  rewrite Qred_correct. field.
  intros H0. apply Hb. unfold Qeq in H0. simpl in H0. lia.
Qed.

(** ** What [checkAndResolve] selects *)

Lemma checkAndResolve_selects (o o' : UpChunk) :
  checkAndResolve o = Some o' ->
  exists b size,
    blob o = Some b /\
    o' = set_chunk (Some (blob_slice b (lastIndex o) (lastIndex o + size))) o /\
    let remainingSize := blob_size b - lastIndex o in
    ((allChunksReceived o = true /\ remainingSize < MIN_CHUNK_SIZE /\ size = remainingSize)
     \/ (MIN_CHUNK_SIZE <= remainingSize /\
         size = if maxChunkByteSize o <=? remainingSize then maxChunkByteSize o
                else nearestMultiple remainingSize)).
Proof.
  unfold checkAndResolve. destruct (blob o) as [b|]; [|discriminate].
  destruct (allChunksReceived o && (blob_size b - lastIndex o <? MIN_CHUNK_SIZE)) eqn:Hfinal.
  - intros [= <-]. apply andb_prop in Hfinal as [Hall Hlt].
    exists b, (blob_size b - lastIndex o). repeat split; try reflexivity.
    left. apply Z.ltb_lt in Hlt. auto.
  - destruct (Z.leb_spec MIN_CHUNK_SIZE (blob_size b - lastIndex o)) as [Hge|_]; [|discriminate].
    intros [= <-]. eexists b, _. repeat split; try reflexivity.
    right. split; [exact Hge|reflexivity].
Qed.

(** A selected chunk is sent in the same turn: the attempt event is
    dispatched and then the request leaves. *)
Lemma timer_checkAndResolve_sends (w : World) (o : UpChunk) :
  checkAndResolve (this w) = Some o ->
  exists b c,
    blob (this w) = Some b /\ chunk o = Some c /\
    timer_checkAndResolve w =
      xhr {| xhr_headers :=
               <["Content-Range" :=
                   "bytes " +:+ pretty (lastIndex (this w)) +:+ "-"
                   +:+ pretty (lastIndex (this w) + blob_size c - 1) +:+ "/"
                   +:+ (if allChunksReceived (this w) then pretty (blob_size b) else "*")]>
                 (<["Content-Type" := "application/octet-stream"]> (headers (this w)));
             url := endpointValue (this w); method := "PUT"; body := c |}
          (dispatch (attempt (chunkCount (this w)) (js_div (blob_size c) 1024))
             (with_this (fun _ => o) w)).
Proof.
  intros Hsel. unfold timer_checkAndResolve. rewrite Hsel.
  apply checkAndResolve_selects in Hsel as (b & size & Hb & -> & _).
  eexists b, _. split; [exact Hb|]. split; [reflexivity|].
  unfold sendChunk, contentRange. simpl. rewrite Hb. simpl.
  destruct (allChunksReceived (this w)); reflexivity.
Qed.

(** ** What holds of every constructed object *)

Lemma or_default_nonzero (x : option Z) (d : Z) : d <> 0 -> or_default x d <> 0.
Proof.
  intros Hd. unfold or_default. destruct x as [v|]; [|exact Hd].
  destruct (Z.eqb_spec v 0); auto.
Qed.

Lemma getEndpoint_then_fields (w : World) :
  lastIndex (this (getEndpoint_then w)) = lastIndex (this w) /\
  maxChunkByteSize (this (getEndpoint_then w)) = maxChunkByteSize (this w) /\
  attempts (this (getEndpoint_then w)) = attempts (this w).
Proof. unfold getEndpoint_then. destruct (endpoint (this w)); auto. Qed.

(** A constructor that returns has stored a byte limit that is a
    positive multiple of 256 KiB, and a cursor of 0. *)
Lemma constructor_fields (hasWindow : bool) (options : IOptions) (w : World) :
  constructor hasWindow options = inr w ->
  lastIndex (this w) = 0 /\
  exists k, 0 < k /\ maxChunkByteSize (this w) = k * MIN_CHUNK_SIZE.
Proof.
  unfold constructor.
  destruct (validateOptions (initial_fields options)) eqn:Hv; [discriminate|].
  intros [= <-].
  destruct (getEndpoint_then_fields
              {| this := initial_fields options; dispatched := []; pending := [];
                 requests := []; window := hasWindow |}) as (-> & -> & _).
  split; [reflexivity|]. simpl.
  unfold validateOptions in Hv.
  destruct (match endpoint (initial_fields options) with
            | EndpointString s => bool_decide (s = "")
            | EndpointFunction => false
            end); [discriminate|].
  simpl in Hv.
  set (m := or_default (opt_maxChunkSize options) 5120) in *.
  assert (Hm : m <> 0) by (apply or_default_nonzero; lia).
  destruct (Z.eqb_spec m 0) as [?|_]; [contradiction|]. simpl in Hv.
  destruct (Z.leb_spec m 0) as [?|Hpos]; [discriminate|]. simpl in Hv.
  destruct (Z.eqb_spec (Z.rem m 256) 0) as [Hrem|?]; [|discriminate].
  exists (m / 256). unfold MIN_CHUNK_SIZE.
  rewrite Z.rem_mod_nonneg in Hrem by lia.
  pose proof (Z.div_mod m 256 ltac:(lia)) as Hdm. lia.
Qed.

(** The byte limit and the attempt budget are never assigned again. *)
Lemma step_keeps_options (w w' : World) (i : Input) :
  step w i = Some w' ->
  maxChunkByteSize (this w') = maxChunkByteSize (this w) /\
  attempts (this w') = attempts (this w).
Proof.
  intros H. step_cases H; auto;
    match goal with
    | Hc : checkAndResolve _ = Some _ |- _ =>
        apply checkAndResolve_selects in Hc as (? & ? & ? & -> & _)
    end;
    simpl in *; repeat (case_match; simpl in *; simplify_eq); auto.
Qed.

(** The cursor never moves back. *)
Lemma step_cursor_monotone (w w' : World) (i : Input) :
  step w i = Some w' -> lastIndex (this w) <= lastIndex (this w').
Proof.
  intros H. step_cases H;
    try match goal with
    | Hc : checkAndResolve _ = Some _ |- _ =>
        apply checkAndResolve_selects in Hc as (? & ? & ? & -> & _)
    end;
    simpl in *; repeat (case_match; simpl in *; simplify_eq);
    unfold blob_size; lia.
Qed.

Lemma run_invariant (w w' : World) (inputs : list Input) :
  run w inputs = Some w' ->
  maxChunkByteSize (this w') = maxChunkByteSize (this w) /\
  attempts (this w') = attempts (this w) /\
  lastIndex (this w) <= lastIndex (this w').
Proof.
  revert w. induction inputs as [|i rest IH]; intros w; simpl.
  - intros [= <-]. repeat split; lia.
  - destruct (step w i) as [w1|] eqn:Hstep; [|discriminate].
    intros Hrun. apply IH in Hrun as (-> & -> & Hle).
    pose proof (step_keeps_options _ _ _ Hstep) as [-> ->].
    pose proof (step_cursor_monotone _ _ _ Hstep). repeat split; lia.
Qed.

(** ** Chunk sizes *)

Lemma nearestMultiple_bounds (size : Z) :
  MIN_CHUNK_SIZE <= size ->
  0 < size / MIN_CHUNK_SIZE /\ MIN_CHUNK_SIZE <= nearestMultiple size <= size.
Proof.
  intros Hge. unfold nearestMultiple, MIN_CHUNK_SIZE in *.
  pose proof (Z.div_mod size (256 * 1024) ltac:(lia)) as Hdm.
  pose proof (Z.mod_pos_bound size (256 * 1024) ltac:(lia)) as Hmod.
  assert (0 < size / (256 * 1024)) by (apply Z.div_str_pos; lia).
  lia.
Qed.

(** C4. In every state reached from a successful construction, a chunk
    selected while the source is not complete has a size that is a
    positive multiple of 256 KiB and at most the configured maximum in
    bytes; when the remaining bytes are at least 256 KiB and less than
    the maximum, the size is the remaining count rounded down to a
    multiple of 256 KiB. *)
Theorem chunk_size_while_incomplete
    (hasWindow : bool) (options : IOptions) (inputs : list Input)
    (w0 w : World) (o : UpChunk) :
  constructor hasWindow options = inr w0 ->
  run w0 inputs = Some w ->
  allChunksReceived (this w) = false ->
  checkAndResolve (this w) = Some o ->
  exists b c,
    blob (this w) = Some b /\ chunk o = Some c /\
    maxChunkByteSize (this w) = or_default (opt_maxChunkSize options) 5120 * 1024 /\
    (exists k, 0 < k /\ blob_size c = k * (256 * 1024)) /\
    blob_size c <= maxChunkByteSize (this w) /\
    (let remaining := blob_size b - lastIndex (this w) in
     256 * 1024 <= remaining < maxChunkByteSize (this w) ->
     blob_size c = 256 * 1024 * (remaining / (256 * 1024))).
Proof.
  intros Hnew Hrun Hopen Hsel.
  assert (Hmax0 : maxChunkByteSize (this w0)
                  = or_default (opt_maxChunkSize options) 5120 * 1024).
  { unfold constructor in Hnew.
    destruct (validateOptions (initial_fields options)); [discriminate|].
    injection Hnew as <-.
    now destruct (getEndpoint_then_fields
                    {| this := initial_fields options; dispatched := []; pending := [];
                       requests := []; window := hasWindow |}) as (_ & -> & _). }
  apply constructor_fields in Hnew as (Hzero & k & Hk & Hmax).
  apply run_invariant in Hrun as (Hsame & _ & Hcursor).
  rewrite Hzero in Hcursor. rewrite <- Hsame in Hmax, Hmax0.
  apply checkAndResolve_selects in Hsel as (b & size & Hb & -> & Hsize).
  exists b, (blob_slice b (lastIndex (this w)) (lastIndex (this w) + size)).
  split; [exact Hb|]. split; [reflexivity|]. split; [exact Hmax0|].
  simpl in Hsize. destruct Hsize as [(Hall & _)|(Hge & Hsz)]; [congruence|].
  pose proof (nearestMultiple_bounds _ Hge) as [Hq Hnm].
  revert Hsz.
  destruct (Z.leb_spec (maxChunkByteSize (this w)) (blob_size b - lastIndex (this w)))
    as [Hfull|Hpart]; intros ->; unfold nearestMultiple, MIN_CHUNK_SIZE in *.
  - rewrite blob_slice_size by lia.
    split; [exists k; split; [exact Hk|lia]|]. split; [lia|]. lia.
  - rewrite blob_slice_size by lia.
    split; [eexists; split; [exact Hq|lia]|]. split; [lia|]. intros _. lia.
Qed.

(** ** The attempt event and the request framing *)

(** C10. For every chunk that [getChunk] selects, the attempt event is
    dispatched in the same turn, immediately before the request leaves,
    and its [chunkSize] is the byte size of the chunk divided by 1024 (so
    1024 times it is the byte size, and it differs from the byte size
    for every non-empty chunk). *)
Theorem attempt_event_reports_kilobytes (w : World) (o : UpChunk) :
  checkAndResolve (this w) = Some o ->
  exists c q r,
    chunk o = Some c /\
    timer_checkAndResolve w =
      xhr r (dispatch (attempt (chunkCount (this w)) (Finite q))
               (with_this (fun _ => o) w)) /\
    body r = c /\
    (q * inject_Z 1024 == inject_Z (blob_size c))%Q /\
    (blob_size c <> 0 -> ~ (q == inject_Z (blob_size c))%Q).
Proof.
  intros Hsel.
  destruct (timer_checkAndResolve_sends w o Hsel) as (b & c & Hb & Hc & Hsend).
  destruct (js_div_finite (blob_size c) 1024 ltac:(lia)) as (q & Hq & Hmul).
  rewrite Hq in Hsend.
  eexists c, q, _. split; [exact Hc|]. split; [exact Hsend|].
  split; [reflexivity|]. split; [exact Hmul|].
  intros Hne Heq. rewrite Heq in Hmul.
  unfold Qeq in Hmul. simpl in Hmul. lia.
Qed.

(** C5, as the code has it. For every chunk that [getChunk] selects, the
    request carries [Content-Range: bytes {start}-{end}/{total}] where
    start is the cursor, end is start plus the chunk size minus one, and
    total is the size of the source whenever completion has been
    signalled when the request is built, for final and non-final chunks
    alike, and the character [*] only while the source is not complete. *)
Theorem content_range_total_follows_completion_flag (w : World) (o : UpChunk) :
  checkAndResolve (this w) = Some o ->
  exists b c r,
    blob (this w) = Some b /\ chunk o = Some c /\
    timer_checkAndResolve w =
      xhr r (dispatch (attempt (chunkCount (this w)) (js_div (blob_size c) 1024))
               (with_this (fun _ => o) w)) /\
    xhr_headers r !! "Content-Range" =
      Some ("bytes " +:+ pretty (lastIndex (this w)) +:+ "-"
            +:+ pretty (lastIndex (this w) + blob_size c - 1) +:+ "/"
            +:+ (if allChunksReceived (this w) then pretty (blob_size b) else "*")) /\
    xhr_headers r !! "Content-Type" = Some "application/octet-stream" /\
    method r = "PUT" /\ body r = c.
Proof.
  intros Hsel.
  destruct (timer_checkAndResolve_sends w o Hsel) as (b & c & Hb & Hc & Hsend).
  eexists b, c, _. split; [exact Hb|]. split; [exact Hc|]. split; [exact Hsend|].
  simpl. split; [apply lookup_insert_eq|].
  split; [|split; reflexivity].
  rewrite lookup_insert_ne by discriminate. apply lookup_insert_eq.
Qed.

(** C6, as the code has it. [addChunk] has no failure path and does not
    look at the completion flag: in every state, also after [finish],
    the call returns, the stored bytes become the old bytes followed by
    the new data in order, and the completion flag is left as it was. *)
Theorem addChunk_appends_in_every_state (w : World) (c : Blob) :
  step w (call_addChunk c) = Some (with_this (addChunk c) w) /\
  blob (addChunk c (this w)) = Some (default [] (blob (this w)) ++ c) /\
  allChunksReceived (addChunk c (this w)) = allChunksReceived (this w) /\
  lastIndex (addChunk c (this w)) = lastIndex (this w).
Proof.
  split; [reflexivity|]. unfold addChunk.
  destruct (blob (this w)); simpl; auto.
Qed.

(** The timer of [getChunk] in a state where the source is complete and
    no byte remains at the cursor: [checkAndResolve] has no case for an
    empty remainder, so the empty chunk is selected and sent.  An attempt
    event with size 0 is dispatched and a request with an empty body and
    [Content-Range] from the cursor to the cursor minus one leaves;
    nothing is reported as done in that turn.  If that request is
    answered with a success status, the answer dispatches the success
    event. *)
Theorem nothing_left_sends_empty_chunk (w : World) (b : Blob) :
  blob (this w) = Some b ->
  allChunksReceived (this w) = true ->
  blob_size b - lastIndex (this w) = 0 ->
  exists r,
    timer_checkAndResolve w =
      xhr r (dispatch (attempt (chunkCount (this w)) (Finite 0))
               (with_this (set_chunk (Some [])) w)) /\
    body r = [] /\
    xhr_headers r !! "Content-Range" =
      Some ("bytes " +:+ pretty (lastIndex (this w)) +:+ "-"
            +:+ pretty (lastIndex (this w) - 1) +:+ "/" +:+ pretty (blob_size b)) /\
    forall statusCode,
      includes SUCCESSFUL_CHUNK_UPLOAD_CODES statusCode = true ->
      dispatched (settle (Response statusCode) (timer_checkAndResolve w)) =
        dispatched w ++ [attempt (chunkCount (this w)) (Finite 0); success;
                         progress (percentProgress (lastIndex (this w)) (blob_size b))].
Proof.
  intros Hb Hall Hrem.
  assert (Hsel : checkAndResolve (this w) = Some (set_chunk (Some []) (this w))).
  { unfold checkAndResolve. rewrite Hb, Hall, Hrem. simpl.
    rewrite Z.add_0_r, blob_slice_empty. reflexivity. }
  destruct (timer_checkAndResolve_sends w _ Hsel) as (b' & c & Hb' & Hc & Hsend).
  simpl in Hc. injection Hc as <-. rewrite Hb in Hb'. injection Hb' as <-.
  rewrite Hall in Hsend. change (js_div (blob_size []) 1024) with (Finite 0) in Hsend.
  change (blob_size []) with 0 in Hsend. rewrite Z.add_0_r in Hsend.
  eexists. split; [exact Hsend|]. split; [reflexivity|].
  split; [simpl; apply lookup_insert_eq|].
  intros statusCode Hok. rewrite Hsend.
  unfold settle, onFulfilled. rewrite Hok. simpl. rewrite Hb, Hall. simpl.
  change (blob_size []) with 0. rewrite Z.add_0_r.
  replace (blob_size b <=? lastIndex (this w)) with true
    by (symmetry; apply Z.leb_le; lia).
  simpl. rewrite Z.add_0_r, <- !app_assoc. reflexivity.
Qed.

(** ** Settling a request *)

Lemma includes_temporary_not_successful (statusCode : Z) :
  includes TEMPORARY_ERROR_CODES statusCode = true ->
  includes SUCCESSFUL_CHUNK_UPLOAD_CODES statusCode = false.
Proof.
  unfold includes. simpl. intros H.
  repeat (apply orb_prop in H as [H|H]; [apply Z.eqb_eq in H; subst; reflexivity|]).
  discriminate.
Qed.

(** Retry bookkeeping touches the attempt counter only. *)
Lemma manageRetries_this (w : World) :
  this (manageRetries w) = this w \/
  this (manageRetries w) = set_attemptCount (attemptCount (this w) + 1) (this w).
Proof.
  unfold manageRetries. destruct (attemptCount (this w) <? attempts (this w)); simpl; auto.
Qed.

Lemma settle_failure_this (w : World) (r : XhrResult) :
  match r with
  | Failure => True
  | Response statusCode => includes SUCCESSFUL_CHUNK_UPLOAD_CODES statusCode = false
  end ->
  this (settle r w) = this w \/
  this (settle r w) = set_attemptCount (attemptCount (this w) + 1) (this w).
Proof.
  destruct r as [statusCode|]; intros Hr; unfold settle.
  - unfold onFulfilled. rewrite Hr.
    destruct (includes TEMPORARY_ERROR_CODES statusCode), (gate_closed (this w));
      simpl; auto using manageRetries_this.
  - unfold onRejected. destruct (gate_closed (this w)); auto using manageRetries_this.
Qed.

(** C7, as the code has it. When the gate is closed (paused or offline)
    at the moment an outstanding request settles, failure handling is
    skipped: a network failure or a status outside the success set
    changes nothing but the removal of the request (no counter, no
    event, no timer).  Success handling is not gated: a success status
    still advances the cursor by the chunk size, counts the chunk and
    dispatches the progress event (preceded by the success event when
    the upload is complete); only the next loop entry stops at the gate,
    so nothing new is scheduled. *)
Theorem closed_gate_skips_failure_handling_only
    (w : World) (k : nat) (options : XhrUrlConfig) :
  pending w !! k = Some (xhr_request options) ->
  gate_closed (this w) = true ->
  (forall r,
      match r with
      | Failure => True
      | Response statusCode => includes SUCCESSFUL_CHUNK_UPLOAD_CODES statusCode = false
      end ->
      step w (request_settles k r) = Some (unschedule k w)) /\
  (forall statusCode c b,
      includes SUCCESSFUL_CHUNK_UPLOAD_CODES statusCode = true ->
      chunk (this w) = Some c ->
      blob (this w) = Some b ->
      exists w',
        step w (request_settles k (Response statusCode)) = Some w' /\
        lastIndex (this w') = lastIndex (this w) + blob_size c /\
        chunkCount (this w') = chunkCount (this w) + 1 /\
        attemptCount (this w') = attemptCount (this w) /\
        pending w' = delete k (pending w) /\
        requests w' = requests w /\
        dispatched w' =
          dispatched w
          ++ (if allChunksReceived (this w)
                 && (blob_size b <=? lastIndex (this w) + blob_size c)
              then [success] else [])
          ++ [progress (percentProgress (lastIndex (this w) + blob_size c) (blob_size b))]).
Proof.
  intros Hpending Hgate. split.
  - intros r Hr. unfold step. rewrite Hpending. f_equal.
    destruct r as [statusCode|]; unfold settle.
    + unfold onFulfilled. rewrite Hr.
      change (this (unschedule k w)) with (this w). rewrite Hgate.
      destruct (includes TEMPORARY_ERROR_CODES statusCode); reflexivity.
    + unfold onRejected. simpl. rewrite Hgate. reflexivity.
  - intros statusCode c b Hok Hc Hb. eexists. split.
    + unfold step. rewrite Hpending. reflexivity.
    + unfold settle, onFulfilled. rewrite Hok. simpl. rewrite Hc. simpl. rewrite Hb.
      unfold gate_closed in Hgate.
      destruct (allChunksReceived (this w)
                && (blob_size b <=? lastIndex (this w) + blob_size c)); simpl;
        [|unfold sendChunks, gate_closed; simpl; rewrite Hgate; simpl];
        repeat split; rewrite <- ?app_assoc; reflexivity.
Qed.

(** ** Retrying a chunk *)

(** Selecting again at the same cursor over the same bytes gives the
    same chunk, also when completion was signalled in between. *)
Lemma checkAndResolve_again (o1 o1' o2 : UpChunk) :
  checkAndResolve o1 = Some o1' ->
  blob o2 = blob o1 ->
  lastIndex o2 = lastIndex o1 ->
  maxChunkByteSize o2 = maxChunkByteSize o1 ->
  (allChunksReceived o1 = true -> allChunksReceived o2 = true) ->
  exists o2', checkAndResolve o2 = Some o2' /\
              lastIndex o2' = lastIndex o1' /\ chunk o2' = chunk o1'.
Proof.
  intros Hsel Hblob Hidx Hmax Hflag.
  apply checkAndResolve_selects in Hsel as (b & size & Hb & -> & Hsize).
  unfold checkAndResolve. rewrite Hblob, Hb, Hidx, Hmax. simpl in *.
  destruct Hsize as [(Hall & Hlt & ->)|(Hge & ->)].
  - rewrite (Hflag Hall). apply Z.ltb_lt in Hlt. rewrite Hlt. simpl.
    eexists. split; [reflexivity|]. simpl. auto.
  - replace (blob_size b - lastIndex o1 <? MIN_CHUNK_SIZE) with false
      by (symmetry; apply Z.ltb_ge; lia).
    rewrite andb_false_r.
    replace (MIN_CHUNK_SIZE <=? blob_size b - lastIndex o1) with true
      by (symmetry; apply Z.leb_le; lia).
    eexists. split; [reflexivity|]. simpl. auto.
Qed.

(** A chunk of the maximum size is selected again after the source has
    grown. *)
Lemma checkAndResolve_grown (o1 o1' o2 : UpChunk) (b extra : Blob) :
  checkAndResolve o1 = Some o1' ->
  blob o1 = Some b ->
  0 <= lastIndex o1 ->
  MIN_CHUNK_SIZE <= maxChunkByteSize o1 ->
  maxChunkByteSize o1 <= blob_size b - lastIndex o1 ->
  blob o2 = Some (b ++ extra) ->
  lastIndex o2 = lastIndex o1 ->
  maxChunkByteSize o2 = maxChunkByteSize o1 ->
  exists o2', checkAndResolve o2 = Some o2' /\
              lastIndex o2' = lastIndex o1' /\ chunk o2' = chunk o1'.
Proof.
  intros Hsel Hb Hpos Hmin Hfull Hblob Hidx Hmax.
  apply checkAndResolve_selects in Hsel as (b' & size & Hb' & -> & Hsize).
  rewrite Hb in Hb'. injection Hb' as <-.
  pose proof (blob_size_nonneg extra) as Hextra.
  unfold checkAndResolve. rewrite Hblob, Hidx, Hmax, blob_size_app. simpl in *.
  replace (blob_size b + blob_size extra - lastIndex o1 <? MIN_CHUNK_SIZE) with false
    by (symmetry; apply Z.ltb_ge; lia).
  rewrite andb_false_r.
  replace (MIN_CHUNK_SIZE <=? blob_size b + blob_size extra - lastIndex o1) with true
    by (symmetry; apply Z.leb_le; lia).
  replace (maxChunkByteSize o1 <=? blob_size b + blob_size extra - lastIndex o1) with true
    by (symmetry; apply Z.leb_le; lia).
  eexists. split; [reflexivity|]. simpl. split; [exact Hidx|].
  destruct Hsize as [(_ & Hlt & _)|(_ & ->)]; [lia|].
  replace (maxChunkByteSize o1 <=? blob_size b - lastIndex o1) with true
    by (symmetry; apply Z.leb_le; lia).
  unfold MIN_CHUNK_SIZE in Hmin. rewrite blob_slice_app by lia. reflexivity.
Qed.

(** C3, as the code has it. After a network failure or a transient
    status, with or without retry bookkeeping, the chunk is selected
    afresh at the same cursor when the loop is entered again.  The retried
    request covers exactly the same bytes when the source has not grown
    since the failed attempt, also when completion was signalled in
    between; and, for an object whose cursor is not negative and whose
    maximum is at least 256 KiB, also when the source has grown but the
    failed chunk already had the maximum size. *)
Theorem retried_chunk_is_selected_afresh
    (w : World) (o : UpChunk) (r : XhrResult) (k : nat) (completed : bool) :
  checkAndResolve (this w) = Some o ->
  match r with
  | Failure => True
  | Response statusCode => includes TEMPORARY_ERROR_CODES statusCode = true
  end ->
  let failed := settle r (unschedule k (timer_checkAndResolve w)) in
  let at_retry := if completed then finish (this failed) else this failed in
  (exists o', checkAndResolve at_retry = Some o' /\
              lastIndex o' = lastIndex o /\ chunk o' = chunk o) /\
  (forall b extra,
      blob (this w) = Some b ->
      0 <= lastIndex (this w) ->
      MIN_CHUNK_SIZE <= maxChunkByteSize (this w) ->
      maxChunkByteSize (this w) <= blob_size b - lastIndex (this w) ->
      exists o', checkAndResolve (addChunk extra at_retry) = Some o' /\
                 lastIndex o' = lastIndex o /\ chunk o' = chunk o).
Proof.
  intros Hsel Hr failed at_retry.
  destruct (timer_checkAndResolve_sends w o Hsel) as (b0 & c & Hb0 & Hc & Hsend).
  assert (Hfields : blob at_retry = blob (this w) /\
                    lastIndex at_retry = lastIndex (this w) /\
                    maxChunkByteSize at_retry = maxChunkByteSize (this w) /\
                    (allChunksReceived (this w) = true -> allChunksReceived at_retry = true)).
  { assert (Hnot : match r with
                   | Failure => True
                   | Response statusCode =>
                       includes SUCCESSFUL_CHUNK_UPLOAD_CODES statusCode = false
                   end)
      by (destruct r; auto using includes_temporary_not_successful).
    pose proof (settle_failure_this (unschedule k (timer_checkAndResolve w)) r Hnot) as Hthis.
    fold failed in Hthis. rewrite Hsend in Hthis. simpl in Hthis.
    apply checkAndResolve_selects in Hsel as (? & ? & _ & Ho & _).
    subst at_retry.
    destruct Hthis as [-> | ->]; rewrite Ho; destruct completed; simpl; auto. }
  destruct Hfields as (Hblob & Hidx & Hmax & Hflag).
  split.
  - eapply checkAndResolve_again; eauto.
  - intros b extra Hb Hpos Hmin Hfull.
    eapply (checkAndResolve_grown (this w) o (addChunk extra at_retry) b extra); eauto.
    + unfold addChunk. rewrite Hblob, Hb. reflexivity.
    + unfold addChunk. destruct (blob at_retry); simpl; exact Hidx.
    + unfold addChunk. destruct (blob at_retry); simpl; exact Hmax.
Qed.

(** ** Progress and the attempt counter *)

(** Rounding the quotient first leaves two possible percentages. *)
Lemma percentProgress_zero_or_hundred (lastIndex size : Z) :
  0 <= lastIndex <= size -> 0 < size ->
  percentProgress lastIndex size = Finite 0 \/
  percentProgress lastIndex size = Finite (inject_Z 100).
Proof.
  intros [Hlo Hhi] Hsize. unfold percentProgress, js_div.
  destruct (Z.eqb_spec size 0) as [?|_]; [lia|]. unfold Math_round, js_mul.
  set (q := Qred (inject_Z lastIndex / inject_Z size)).
  assert (Hq : (0 <= q <= 1)%Q).
  { unfold q. rewrite Qred_correct.
    assert (Hpos : (0 < inject_Z size)%Q) by (rewrite <- (Zlt_Qlt 0); lia).
    split.
    - apply Qle_shift_div_l; [exact Hpos|]. rewrite Qmult_0_l.
      rewrite <- (Zle_Qle 0). lia.
    - apply Qle_shift_div_r; [exact Hpos|]. rewrite Qmult_1_l.
      rewrite <- Zle_Qle. lia. }
  clearbody q. destruct Hq as [Hq0 Hq1].
  assert (Hfloor : 0 <= Qfloor (q + (1 # 2)) <= 1).
  { split.
    - change (Qfloor 0 <= Qfloor (q + (1 # 2))). apply Qfloor_resp_le. lra.
    - change (Qfloor (q + (1 # 2)) <= Qfloor (3 # 2)). apply Qfloor_resp_le. lra. }
  assert (Hcases : Qfloor (q + (1 # 2)) = 0 \/ Qfloor (q + (1 # 2)) = 1) by lia.
  destruct Hcases as [-> | ->]; [left|right]; reflexivity.
Qed.

(** No turn of the event loop lowers the attempt counter: nothing resets
    it, whatever happens to the cursor. *)
Lemma step_attemptCount_monotone (w w' : World) (i : Input) :
  step w i = Some w' -> attemptCount (this w) <= attemptCount (this w').
Proof.
  intros H. step_cases H;
    try match goal with
    | Hc : checkAndResolve _ = Some _ |- _ =>
        apply checkAndResolve_selects in Hc as (? & ? & ? & -> & _)
    end;
    simpl in *; repeat (case_match; simpl in *; simplify_eq);
    lia.
Qed.

(** ** The sessions of the examples *)

(** C1. The claim is that the progress event after a successful chunk
    carries round(cursor / total * 100).  In the 600 KiB session the
    first chunk of 256 KiB is accepted and the cursor is 262144 of
    614400 bytes, which is 43 percent when rounded after multiplying;
    the event dispatched carries 0, because the quotient is rounded
    before it is multiplied by 100. *)
Theorem progress_after_first_chunk_is_zero :
  let session := createUpload_then (example_options 256 5) file_600KiB_first_response in
  dispatched <$> session = Some [attempt 0 (Finite (inject_Z 256)); progress (Finite 0)] /\
  (fun w => lastIndex (this w)) <$> session = Some 262144 /\
  (fun w => blob_size <$> blob (this w)) <$> session = Some (Some 614400) /\
  percentProgress 262144 614400 = Finite 0 /\
  Math_round (js_mul (js_div 262144 614400) 100) = Finite (inject_Z 43).
Proof. evaluate_session. Qed.

(** C2. The claim is that the attempt counter is reset when a chunk
    succeeds.  With two attempts allowed, the first chunk fails twice and
    is then accepted; the counter is still 2 afterwards, so the first
    failure of the second chunk is answered with the final error event
    instead of a retry. *)
Theorem attempt_budget_is_shared_by_all_chunks :
  let session := createUpload_then (example_options 256 2) second_chunk_fails_once in
  dispatched <$> session =
    Some [attempt 0 (Finite (inject_Z 256));
          attemptFailure "An error occured uploading chunk 0. 1 retries left." 0 1;
          attempt 0 (Finite (inject_Z 256));
          attemptFailure "An error occured uploading chunk 0. 0 retries left." 0 0;
          attempt 0 (Finite (inject_Z 256));
          progress (Finite (inject_Z 100));
          attempt 1 (Finite (1 # 1024));
          error_noMoreRetries
            "An error occured uploading chunk 1. No more retries, stopping upload" 1 2] /\
  (fun w => (chunkCount (this w), attemptCount (this w), attempts (this w))) <$> session
    = Some (1, 2, 2) /\
  pending <$> session = Some [].
Proof. evaluate_session. Qed.

(** C8. The claim is that nothing is sent while [paused] is true unless
    a request was already in flight when the pause took effect.  Here
    [pause()] is called while the engine waits for data and nothing is in
    flight; when 256 KiB arrive, the waiting timer selects a chunk and
    sends it although [paused] is still true. *)
Theorem chunk_is_sent_while_paused :
  let before := createUpload_then (example_options 256 5) paused_while_waiting in
  let after := createUpload_then (example_options 256 5) data_arrives_while_paused in
  (fun w => (paused (this w), pending w, requests w)) <$> before
    = Some (true, [timeout_checkAndResolve 1000], []) /\
  (fun w => paused (this w)) <$> after = Some true /\
  (fun w => content_range <$> requests w) <$> after = Some [Some "bytes 0-262143/*"] /\
  (fun w => (fun r => blob_size (body r)) <$> requests w) <$> after = Some [262144] /\
  dispatched <$> after = Some [attempt 0 (Finite (inject_Z 256))].
Proof. evaluate_session. Qed.

(** C3, counterexample. The first chunk of a 300 KiB recording (maximum
    512 KiB) is bytes 0-262143; it fails with 503, the recording grows to
    600 KiB, and the retry sends bytes 0-524287, not the range of the
    failed attempt. *)
Lemma retried_range_grows_with_the_source :
  let session := createUpload_then (example_options 512 5) grows_before_retry in
  (fun w => content_range <$> requests w) <$> session
    = Some [Some "bytes 0-262143/*"; Some "bytes 0-524287/*"] /\
  (fun w => content_range <$> requests w) <$> session
    <> Some [Some "bytes 0-262143/*"; Some "bytes 0-262143/*"] /\
  (fun w => (fun r => blob_size (body r)) <$> requests w) <$> session
    = Some [262144; 524288] /\
  dispatched <$> session =
    Some [attempt 0 (Finite (inject_Z 256));
          attemptFailure "An error occured uploading chunk 0. 4 retries left." 0 4;
          attempt 0 (Finite (inject_Z 512))].
Proof. evaluate_session. Qed.

(** C5, counterexample. The first chunk of the finished 600 KiB file is
    bytes 0-262143 of 614400, so it is not the final chunk, and its
    [Content-Range] carries the total 614400, not [*]. *)
Lemma total_is_sent_with_a_non_final_chunk :
  let session := createUpload_then (example_options 256 5) file_600KiB_first_request in
  (fun w => content_range <$> requests w) <$> session
    = Some [Some "bytes 0-262143/614400"] /\
  (fun w => content_range <$> requests w) <$> session
    <> Some [Some "bytes 0-262143/*"] /\
  (fun w => (allChunksReceived (this w), lastIndex (this w),
             blob_size <$> chunk (this w), blob_size <$> blob (this w))) <$> session
    = Some (true, 0, Some 262144, Some 614400).
Proof. evaluate_session. Qed.

(** C6, counterexample. After [finish()] the completion flag is true; a
    further [addChunk] returns normally and the stored bytes change. *)
Lemma addChunk_after_finish_appends :
  let before := createUpload_then (example_options 256 5) small_file_ready in
  let after := createUpload_then (example_options 256 5)
                 (small_file_ready ++ [call_addChunk [Byte.x04]]) in
  (fun w => (allChunksReceived (this w), blob (this w))) <$> before
    = Some (true, Some [Byte.x01; Byte.x02; Byte.x03]) /\
  (fun w => (allChunksReceived (this w), blob (this w))) <$> after
    = Some (true, Some [Byte.x01; Byte.x02; Byte.x03; Byte.x04]) /\
  (fun w => blob (this w)) <$> after <> (fun w => blob (this w)) <$> before.
Proof. evaluate_session. Qed.

(** C7, counterexample. [pause()] is called while the only chunk of the
    three byte file is in flight; the request is then answered with 200.
    The cursor advances from 0 to 3 and the success and progress events
    are dispatched although [paused] is true. *)
Lemma success_is_handled_while_paused :
  let before := createUpload_then (example_options 256 5) small_file_paused_in_flight in
  let after := createUpload_then (example_options 256 5)
                 (small_file_paused_in_flight ++ [request_settles 0%nat (Response 200)]) in
  (fun w => (paused (this w), lastIndex (this w), chunkCount (this w), dispatched w))
    <$> before = Some (true, 0, 0, [attempt 0 (Finite (3 # 1024))]) /\
  (fun w => (paused (this w), lastIndex (this w), chunkCount (this w), dispatched w))
    <$> after
    = Some (true, 3, 1, [attempt 0 (Finite (3 # 1024)); success;
                         progress (Finite (inject_Z 100))]) /\
  (fun w => lastIndex (this w)) <$> after <> (fun w => lastIndex (this w)) <$> before /\
  dispatched <$> after <> dispatched <$> before.
Proof. evaluate_session. Qed.

(** C9. The claim: when the source is complete and 0 bytes remain at the
    cursor, the engine treats the upload as done and sends no zero-length
    chunk request.  The class does this in one place only, the handler
    of a successful answer (lines 417-418): when [finish()] is called
    while the request of the last 256 KiB is in flight, the answer
    dispatches success, nothing is scheduled and no second request
    leaves.  [getChunk] (lines 318-320) has no such test: when the same
    256 KiB are answered before [finish()] is called, the loop is already
    waiting for data, and the timer that fires after [finish()] selects
    the empty chunk; a second request with an empty body and the range
    262144-262143 is sent and no success event is dispatched. *)
Lemma empty_chunk_is_sent_on_a_chunk_boundary :
  let session := createUpload_then (example_options 256 5) finished_on_a_chunk_boundary in
  let sibling := createUpload_then (example_options 256 5) finished_before_the_last_answer in
  (fun w => content_range <$> requests w) <$> session
    = Some [Some "bytes 0-262143/*"; Some "bytes 262144-262143/262144"] /\
  (fun w => (fun r => blob_size (body r)) <$> requests w) <$> session
    = Some [262144; 0] /\
  (fun w => (fun r => blob_size (body r)) <$> requests w) <$> session
    <> Some [262144] /\
  dispatched <$> session =
    Some [attempt 0 (Finite (inject_Z 256)); progress (Finite (inject_Z 100));
          attempt 1 (Finite 0)] /\
  (fun w => (allChunksReceived (this w), lastIndex (this w), blob_size <$> blob (this w)))
    <$> session = Some (true, 262144, Some 262144) /\
  (fun w => content_range <$> requests w) <$> sibling = Some [Some "bytes 0-262143/*"] /\
  dispatched <$> sibling =
    Some [attempt 0 (Finite (inject_Z 256)); success; progress (Finite (inject_Z 100))] /\
  pending <$> sibling = Some [] /\
  (fun w => (allChunksReceived (this w), lastIndex (this w), blob_size <$> blob (this w)))
    <$> sibling = Some (true, 262144, Some 262144).
Proof. evaluate_session. Qed.

(** ** The theorems at concrete inputs *)

(** 300000 bytes of an unfinished recording with a maximum of 512 KiB:
    one unit of 256 KiB is selected. *)
Lemma chunk_size_while_incomplete_witness :
  exists w0 w o,
    constructor true (example_options 512 5) = inr w0 /\
    run w0 [run_reaction 0%nat; call_addChunk (zeros 300000)] = Some w /\
    allChunksReceived (this w) = false /\
    checkAndResolve (this w) = Some o /\
    exists b c,
      blob (this w) = Some b /\ chunk o = Some c /\
      maxChunkByteSize (this w)
        = or_default (opt_maxChunkSize (example_options 512 5)) 5120 * 1024 /\
      (exists k, 0 < k /\ blob_size c = k * (256 * 1024)) /\
      blob_size c <= maxChunkByteSize (this w) /\
      (let remaining := blob_size b - lastIndex (this w) in
       256 * 1024 <= remaining < maxChunkByteSize (this w) ->
       blob_size c = 256 * 1024 * (remaining / (256 * 1024))).
Proof.
  eexists _, _, _.
  split; [cbv; reflexivity|].
  split; [cbv -[zeros]; reflexivity|].
  split; [reflexivity|].
  split; [(unfold checkAndResolve;
     cbn [this blob allChunksReceived lastIndex maxChunkByteSize];
     rewrite blob_size_zeros by lia; reflexivity)|].
  eapply (chunk_size_while_incomplete true (example_options 512 5)
            [run_reaction 0%nat; call_addChunk (zeros 300000)]).
  - cbv; reflexivity.
  - cbv -[zeros]; reflexivity.
  - reflexivity.
  - (unfold checkAndResolve;
     cbn [this blob allChunksReceived lastIndex maxChunkByteSize];
     rewrite blob_size_zeros by lia; reflexivity).
Defined.

Lemma attempt_event_reports_kilobytes_witness :
  exists w o,
    createUpload_then (example_options 256 5) small_file_ready = Some w /\
    checkAndResolve (this w) = Some o /\
    exists c q r,
      chunk o = Some c /\
      timer_checkAndResolve w =
        xhr r (dispatch (attempt (chunkCount (this w)) (Finite q))
                 (with_this (fun _ => o) w)) /\
      body r = c /\
      (q * inject_Z 1024 == inject_Z (blob_size c))%Q /\
      (blob_size c <> 0 -> ~ (q == inject_Z (blob_size c))%Q).
Proof.
  eexists _, _.
  split; [vm_compute; reflexivity|].
  split; [vm_compute; reflexivity|].
  apply attempt_event_reports_kilobytes.
  vm_compute; reflexivity.
Defined.

Lemma content_range_total_follows_completion_flag_witness :
  exists w o,
    createUpload_then (example_options 256 5) small_file_ready = Some w /\
    checkAndResolve (this w) = Some o /\
    exists b c r,
      blob (this w) = Some b /\ chunk o = Some c /\
      timer_checkAndResolve w =
        xhr r (dispatch (attempt (chunkCount (this w)) (js_div (blob_size c) 1024))
                 (with_this (fun _ => o) w)) /\
      xhr_headers r !! "Content-Range" =
        Some ("bytes " +:+ pretty (lastIndex (this w)) +:+ "-"
              +:+ pretty (lastIndex (this w) + blob_size c - 1) +:+ "/"
              +:+ (if allChunksReceived (this w) then pretty (blob_size b) else "*")) /\
      xhr_headers r !! "Content-Type" = Some "application/octet-stream" /\
      method r = "PUT" /\ body r = c.
Proof.
  eexists _, _.
  split; [vm_compute; reflexivity|].
  split; [vm_compute; reflexivity|].
  apply content_range_total_follows_completion_flag.
  vm_compute; reflexivity.
Defined.

(** An empty blob is added and the source is finished; the empty request
    is answered with 200. *)
Lemma nothing_left_sends_empty_chunk_witness :
  exists w,
    createUpload_then (example_options 256 5)
      [run_reaction 0%nat; call_addChunk []; call_finish] = Some w /\
    blob (this w) = Some [] /\
    allChunksReceived (this w) = true /\
    blob_size [] - lastIndex (this w) = 0 /\
    exists r,
      timer_checkAndResolve w =
        xhr r (dispatch (attempt (chunkCount (this w)) (Finite 0))
                 (with_this (set_chunk (Some [])) w)) /\
      body r = [] /\
      xhr_headers r !! "Content-Range" =
        Some ("bytes " +:+ pretty (lastIndex (this w)) +:+ "-"
              +:+ pretty (lastIndex (this w) - 1) +:+ "/" +:+ pretty (blob_size [])) /\
      dispatched (settle (Response 200) (timer_checkAndResolve w)) =
        dispatched w ++ [attempt (chunkCount (this w)) (Finite 0); success;
                         progress (percentProgress (lastIndex (this w)) (blob_size []))].
Proof.
  eexists.
  split; [vm_compute; reflexivity|].
  split; [reflexivity|].
  split; [reflexivity|].
  split; [reflexivity|].
  match goal with
  | |- exists r, timer_checkAndResolve ?w = _ /\ _ =>
      destruct (nothing_left_sends_empty_chunk w [] eq_refl eq_refl eq_refl)
        as (r & Hsend & Hbody & Hrange & Hdone)
  end.
  exists r. split; [exact Hsend|]. split; [exact Hbody|]. split; [exact Hrange|].
  apply (Hdone 200). reflexivity.
Defined.

Lemma closed_gate_skips_failure_handling_only_witness :
  exists w options,
    createUpload_then (example_options 256 5) small_file_paused_in_flight = Some w /\
    pending w !! 0%nat = Some (xhr_request options) /\
    gate_closed (this w) = true /\
    step w (request_settles 0%nat (Response 503)) = Some (unschedule 0 w) /\
    step w (request_settles 0%nat Failure) = Some (unschedule 0 w) /\
    exists w',
      step w (request_settles 0%nat (Response 200)) = Some w' /\
      lastIndex (this w') = lastIndex (this w) + 3.
Proof.
  eexists _, _.
  split; [vm_compute; reflexivity|].
  split; [vm_compute; reflexivity|].
  split; [reflexivity|].
  match goal with
  | |- step ?w _ = _ /\ _ =>
      destruct (closed_gate_skips_failure_handling_only w 0%nat _ eq_refl eq_refl)
        as [Hfailure Hsuccess]
  end.
  split; [apply (Hfailure (Response 503)); reflexivity|].
  split; [apply (Hfailure Failure); exact I|].
  destruct (Hsuccess 200 three_bytes three_bytes eq_refl eq_refl eq_refl)
    as (w' & Hstep & Hcursor & _).
  exists w'. split; [exact Hstep|exact Hcursor].
Defined.

(** 300000 bytes of an unfinished recording with a maximum of 256 KiB:
    the chunk has the maximum size; it fails with 503, completion is
    signalled, and 300000 more bytes are added or not. *)
Lemma retried_chunk_is_selected_afresh_witness :
  exists w o,
    createUpload_then (example_options 256 5)
      [run_reaction 0%nat; call_addChunk (zeros 300000)] = Some w /\
    checkAndResolve (this w) = Some o /\
    let failed := settle (Response 503) (unschedule 0 (timer_checkAndResolve w)) in
    let at_retry := finish (this failed) in
    (exists o', checkAndResolve at_retry = Some o' /\
                lastIndex o' = lastIndex o /\ chunk o' = chunk o) /\
    (exists o', checkAndResolve (addChunk (zeros 300000) at_retry) = Some o' /\
                lastIndex o' = lastIndex o /\ chunk o' = chunk o).
Proof.
  eexists _, _.
  split; [cbv -[zeros]; reflexivity|].
  match goal with
  | |- checkAndResolve ?x = Some ?o /\ _ =>
      assert (Hsel : checkAndResolve x = Some o)
        by (unfold checkAndResolve;
            cbn [this blob allChunksReceived lastIndex maxChunkByteSize];
            rewrite blob_size_zeros by lia; reflexivity)
  end.
  split; [exact Hsel|].
  destruct (retried_chunk_is_selected_afresh _ _ (Response 503) 0%nat true Hsel eq_refl)
    as [Hsame Hgrown].
  split; [exact Hsame|].
  apply (Hgrown (zeros 300000) (zeros 300000)).
  - reflexivity.
  - cbn [this lastIndex]. lia.
  - cbn [this maxChunkByteSize]. unfold MIN_CHUNK_SIZE. lia.
  - cbn [this maxChunkByteSize lastIndex]. rewrite blob_size_zeros by lia. lia.
Defined.

(** * Further properties of the class *)

(** ** Construction and validation *)

(** X1. The constructor returns an object exactly when the endpoint is
    not the empty string and, after the defaults are filled in, the
    chunk size is a positive multiple of 256, the number of attempts is
    positive and the delay is not negative. *)
Theorem constructor_accepts_iff (hasWindow : bool) (options : IOptions) :
  (exists w, constructor hasWindow options = inr w) <->
  opt_endpoint options <> EndpointString "" /\
  (0 < or_default (opt_maxChunkSize options) 5120 /\
   Z.rem (or_default (opt_maxChunkSize options) 5120) 256 = 0) /\
  0 < or_default (opt_attempts options) 5 /\
  0 <= or_default (opt_delayBeforeAttempt options) 1.
Proof.
  unfold constructor, validateOptions, initial_fields. simpl.
  pose proof (or_default_nonzero (opt_maxChunkSize options) 5120 ltac:(lia)) as Hm.
  pose proof (or_default_nonzero (opt_attempts options) 5 ltac:(lia)) as Ha.
  pose proof (or_default_nonzero (opt_delayBeforeAttempt options) 1 ltac:(lia)) as Hd.
  set (m := or_default (opt_maxChunkSize options) 5120) in *.
  set (a := or_default (opt_attempts options) 5) in *.
  set (d := or_default (opt_delayBeforeAttempt options) 1) in *.
  destruct (opt_endpoint options) as [s|].
  - destruct (bool_decide_reflect (s = "")) as [->|Hs].
    + split; [intros [w [=]]|intros (He & _); congruence].
    + destruct (Z.eqb_spec m 0), (Z.leb_spec m 0), (Z.eqb_spec (Z.rem m 256) 0),
        (Z.eqb_spec a 0), (Z.leb_spec a 0), (Z.eqb_spec d 0), (Z.ltb_spec d 0);
        simpl; try lia;
        (split; [intros [w [=]]; repeat split; (congruence || lia)
                |intros (_ & (? & ?) & ? & ?); try lia; eauto]).
  - destruct (Z.eqb_spec m 0), (Z.leb_spec m 0), (Z.eqb_spec (Z.rem m 256) 0),
      (Z.eqb_spec a 0), (Z.leb_spec a 0), (Z.eqb_spec d 0), (Z.ltb_spec d 0);
      simpl; try lia;
      (split; [intros [w [=]]; repeat split; (congruence || lia)
              |intros (_ & (? & ?) & ? & ?); try lia; eauto]).
Qed.

(** X2. A numeric option given as 0 is treated as not given: the
    constructor does the same as when the option is left out, so the
    default (5120, 5 or 1) is used; a delay of 0 cannot be configured. *)
Theorem zero_option_is_omitted (hasWindow : bool) (options : IOptions) :
  let omit_zero (x : option Z) :=
    match x with Some 0 => None | _ => x end in
  constructor hasWindow options =
  constructor hasWindow
    {| opt_endpoint := opt_endpoint options;
       opt_headers := opt_headers options;
       opt_maxChunkSize := omit_zero (opt_maxChunkSize options);
       opt_attempts := omit_zero (opt_attempts options);
       opt_delayBeforeAttempt := omit_zero (opt_delayBeforeAttempt options) |}.
Proof.
  intros omit_zero.
  assert (Hd : forall x d, or_default (omit_zero x) d = or_default x d).
  { intros [[| |]|] d; reflexivity. }
  unfold constructor, initial_fields. simpl. rewrite !Hd. reflexivity.
Qed.

(** X3. Validation reports the first failure in a fixed order: an empty
    endpoint string is rejected whatever the other options are; with a
    usable endpoint, a chunk size that is not a positive multiple of 256
    is rejected with the chunk size message whatever the attempts and
    the delay are. *)
Theorem validation_order (hasWindow : bool) (options : IOptions) :
  (opt_endpoint options = EndpointString "" ->
   constructor hasWindow options =
     inl (mkTypeError
            "endpoint must be defined as a string or a function that returns a promise")) /\
  (opt_endpoint options <> EndpointString "" ->
   or_default (opt_maxChunkSize options) 5120 <= 0 \/
   Z.rem (or_default (opt_maxChunkSize options) 5120) 256 <> 0 ->
   constructor hasWindow options =
     inl (mkTypeError "chunkSize must be a positive number in multiples of 256")).
Proof.
  unfold constructor, validateOptions, initial_fields. simpl. split.
  - intros ->. reflexivity.
  - intros He Hbad.
    pose proof (or_default_nonzero (opt_maxChunkSize options) 5120 ltac:(lia)) as Hm.
    set (m := or_default (opt_maxChunkSize options) 5120) in *.
    assert (Hs : match opt_endpoint options with
                 | EndpointString s => bool_decide (s = "")
                 | EndpointFunction => false
                 end = false).
    { destruct (opt_endpoint options) as [s|]; [|reflexivity].
      apply bool_decide_eq_false. congruence. }
    rewrite Hs.
    destruct (Z.eqb_spec m 0) as [?|_]; [lia|]. simpl.
    destruct (Z.leb_spec m 0); [reflexivity|]. simpl.
    destruct (Z.eqb_spec (Z.rem m 256) 0); [lia|reflexivity].
Qed.

Lemma validation_order_witness :
  constructor true (example_options 100 5) =
    inl (mkTypeError "chunkSize must be a positive number in multiples of 256") /\
  constructor true
    {| opt_endpoint := EndpointString ""; opt_headers := None;
       opt_maxChunkSize := Some 100; opt_attempts := None;
       opt_delayBeforeAttempt := None |} =
    inl (mkTypeError
           "endpoint must be defined as a string or a function that returns a promise").
Proof.
  split.
  - apply (proj2 (validation_order true (example_options 100 5))).
    + discriminate.
    + right. vm_compute. discriminate.
  - apply (proj1 (validation_order true _)). reflexivity.
Defined.

(** ** Chunk selection *)

(** X4. [getChunk] keeps waiting exactly when no blob has been added yet,
    or when the source is not complete and fewer than 256 KiB remain
    after the cursor; in every other state a chunk is selected. *)
Theorem checkAndResolve_waits_iff (o : UpChunk) :
  checkAndResolve o = None <->
  blob o = None \/
  exists b, blob o = Some b /\ allChunksReceived o = false /\
            blob_size b - lastIndex o < MIN_CHUNK_SIZE.
Proof.
  unfold checkAndResolve. destruct (blob o) as [b|].
  - destruct (allChunksReceived o); simpl.
    + destruct (Z.ltb_spec (blob_size b - lastIndex o) MIN_CHUNK_SIZE).
      * split; [discriminate|]. intros [[=]|(? & [= <-] & [=] & _)].
      * destruct (Z.leb_spec MIN_CHUNK_SIZE (blob_size b - lastIndex o)); [|lia].
        split; [discriminate|]. intros [[=]|(? & [= <-] & [=] & _)].
    + destruct (Z.leb_spec MIN_CHUNK_SIZE (blob_size b - lastIndex o)).
      * split; [discriminate|]. intros [[=]|(? & [= <-] & _ & ?)]. lia.
      * split; [|reflexivity]. intros _. right. eauto.
  - split; auto.
Qed.

Lemma blob_slice_to_end (b : Blob) (s : Z) :
  0 <= s <= blob_size b -> blob_slice b s (blob_size b) = drop (Z.to_nat s) b.
Proof.
  intros [Hs He]. unfold blob_slice.
  destruct (Z.ltb_spec s 0) as [?|_]; [lia|].
  destruct (Z.ltb_spec (blob_size b) 0) as [?|_]; [lia|].
  replace (Z.min s (blob_size b)) with s by lia.
  rewrite Z.min_id. apply take_ge. rewrite length_drop. unfold blob_size in *. lia.
Qed.

(** X5. Once the source is complete and fewer than 256 KiB remain, the
    chunk selected is everything from the cursor to the end of the
    source, whatever the maximum chunk size is. *)
Theorem final_chunk_is_the_rest (o : UpChunk) (b : Blob) :
  blob o = Some b ->
  allChunksReceived o = true ->
  0 <= lastIndex o <= blob_size b ->
  blob_size b - lastIndex o < MIN_CHUNK_SIZE ->
  checkAndResolve o = Some (set_chunk (Some (drop (Z.to_nat (lastIndex o)) b)) o).
Proof.
  intros Hb Hall Hidx Hlt. unfold checkAndResolve. rewrite Hb, Hall. simpl.
  apply Z.ltb_lt in Hlt. rewrite Hlt.
  replace (lastIndex o + (blob_size b - lastIndex o)) with (blob_size b) by lia.
  rewrite blob_slice_to_end by lia. reflexivity.
Qed.

Lemma final_chunk_is_the_rest_witness :
  exists w,
    createUpload_then (example_options 256 5) small_file_ready = Some w /\
    checkAndResolve (this w)
    = Some (set_chunk (Some (drop (Z.to_nat (lastIndex (this w))) three_bytes)) (this w)).
Proof.
  eexists.
  split; [vm_compute; reflexivity|].
  apply (final_chunk_is_the_rest _ three_bytes).
  - reflexivity.
  - reflexivity.
  - vm_compute. split; discriminate.
  - vm_compute. reflexivity.
Defined.

(** ** What a session keeps *)

Lemma step_chunkCount_monotone (w w' : World) (i : Input) :
  step w i = Some w' -> chunkCount (this w) <= chunkCount (this w').
Proof.
  intros H. step_cases H;
    try match goal with
    | Hc : checkAndResolve _ = Some _ |- _ =>
        apply checkAndResolve_selects in Hc as (? & ? & ? & -> & _)
    end;
    simpl in *; repeat (case_match; simpl in *; simplify_eq);
    lia.
Qed.

(** The source only grows and completion is never withdrawn. *)
Lemma step_source_append_only (w w' : World) (i : Input) :
  step w i = Some w' ->
  (forall b, blob (this w) = Some b -> exists extra, blob (this w') = Some (b ++ extra)) /\
  (allChunksReceived (this w) = true -> allChunksReceived (this w') = true).
Proof.
  intros H.
  assert (Hrefl : forall o : UpChunk,
             forall b, blob o = Some b -> exists extra, blob o = Some (b ++ extra)).
  { intros o b Hb. exists []. rewrite app_nil_r. exact Hb. }
  step_cases H;
    try match goal with
    | Hc : checkAndResolve _ = Some _ |- _ =>
        apply checkAndResolve_selects in Hc as (? & ? & ? & -> & _)
    end;
    simpl in *; repeat (case_match; simpl in *; simplify_eq);
    (split; [intros b' Hb'; simplify_eq; eauto|try discriminate; auto]).
Qed.

(** X6. Over any sequence of calls, timers and responses the cursor,
    the chunk number and the attempt counter never decrease, the byte
    limit and the attempt budget never change, the stored bytes only
    grow at the end and the completion flag, once set, stays set. *)
Theorem session_is_monotone (w w' : World) (inputs : list Input) :
  run w inputs = Some w' ->
  lastIndex (this w) <= lastIndex (this w') /\
  chunkCount (this w) <= chunkCount (this w') /\
  attemptCount (this w) <= attemptCount (this w') /\
  maxChunkByteSize (this w') = maxChunkByteSize (this w) /\
  attempts (this w') = attempts (this w) /\
  (forall b, blob (this w) = Some b -> exists extra, blob (this w') = Some (b ++ extra)) /\
  (allChunksReceived (this w) = true -> allChunksReceived (this w') = true).
Proof.
  revert w. induction inputs as [|i rest IH]; intros w; simpl.
  - intros [= <-]. repeat split; try lia; auto.
    intros b Hb. exists []. rewrite app_nil_r. exact Hb.
  - destruct (step w i) as [w1|] eqn:Hstep; [|discriminate].
    intros Hrun. apply IH in Hrun as (Hidx & Hcount & Hatt & -> & -> & Hblob & Hflag).
    pose proof (step_keeps_options _ _ _ Hstep) as [-> ->].
    pose proof (step_cursor_monotone _ _ _ Hstep).
    pose proof (step_chunkCount_monotone _ _ _ Hstep).
    pose proof (step_attemptCount_monotone _ _ _ Hstep).
    pose proof (step_source_append_only _ _ _ Hstep) as [Hblob1 Hflag1].
    repeat split; try lia; auto.
    intros b Hb. destruct (Hblob1 b Hb) as [e1 He1].
    destruct (Hblob _ He1) as [e2 He2]. exists (e1 ++ e2).
    rewrite He2, <- app_assoc. reflexivity.
Qed.

Lemma session_is_monotone_witness :
  exists w w',
    createUpload_then (example_options 256 5) small_file_ready = Some w /\
    run w [timer_fires 0%nat; request_settles 0%nat (Response 200)] = Some w' /\
    lastIndex (this w) <= lastIndex (this w') /\
    chunkCount (this w) <= chunkCount (this w') /\
    attemptCount (this w) <= attemptCount (this w') /\
    maxChunkByteSize (this w') = maxChunkByteSize (this w) /\
    attempts (this w') = attempts (this w) /\
    (forall b, blob (this w) = Some b -> exists extra, blob (this w') = Some (b ++ extra)) /\
    (allChunksReceived (this w) = true -> allChunksReceived (this w') = true).
Proof.
  eexists _, _.
  split; [vm_compute; reflexivity|].
  split; [vm_compute; reflexivity|].
  apply (session_is_monotone _ _ [timer_fires 0%nat; request_settles 0%nat (Response 200)]).
  vm_compute; reflexivity.
Defined.

(** ** Counting events *)

Lemma count_events_app (p : Event -> bool) (l l' : list Event) :
  count_events p (l ++ l') = (count_events p l + count_events p l')%nat.
Proof. unfold count_events. rewrite List.filter_app, length_app. reflexivity. Qed.

(** One turn dispatches as many attempt events as it issues requests, and
    as many attemptFailure events as it adds to the attempt counter,
    which stays within the budget. *)
Lemma step_counts (w w' : World) (i : Input) :
  step w i = Some w' ->
  (count_events is_attempt (dispatched w') + length (requests w)
   = count_events is_attempt (dispatched w) + length (requests w'))%nat /\
  Z.of_nat (count_events is_attemptFailure (dispatched w')) - attemptCount (this w')
  = Z.of_nat (count_events is_attemptFailure (dispatched w)) - attemptCount (this w) /\
  (attemptCount (this w) <= attempts (this w) ->
   attemptCount (this w') <= attempts (this w')).
Proof.
  intros H. step_cases H;
    try match goal with
    | Hc : checkAndResolve _ = Some _ |- _ =>
        apply checkAndResolve_selects in Hc as (? & ? & ? & -> & _)
    end;
    simpl in *; repeat (case_match; simpl in *; simplify_eq);
    repeat match goal with
           | Hlt : (_ <? _) = true |- _ => apply Z.ltb_lt in Hlt
           end;
    (split; [|split]);
    rewrite ?length_app, ?count_events_app; unfold count_events; simpl; try lia.
Qed.

Lemma run_counts (w w' : World) (inputs : list Input) :
  run w inputs = Some w' ->
  (count_events is_attempt (dispatched w') + length (requests w)
   = count_events is_attempt (dispatched w) + length (requests w'))%nat /\
  Z.of_nat (count_events is_attemptFailure (dispatched w')) - attemptCount (this w')
  = Z.of_nat (count_events is_attemptFailure (dispatched w)) - attemptCount (this w) /\
  (attemptCount (this w) <= attempts (this w) ->
   attemptCount (this w') <= attempts (this w')).
Proof.
  revert w. induction inputs as [|i rest IH]; intros w; simpl.
  - intros [= <-]. auto.
  - destruct (step w i) as [w1|] eqn:Hstep; [|discriminate].
    intros Hrun. apply IH in Hrun as (Ha & Hf & Hb).
    apply step_counts in Hstep as (Ha1 & Hf1 & Hb1).
    repeat split; [lia|lia|auto].
Qed.

Lemma constructor_starts_empty (hasWindow : bool) (options : IOptions) (w : World) :
  constructor hasWindow options = inr w ->
  dispatched w = [] /\ requests w = [] /\ attemptCount (this w) = 0 /\
  lastIndex (this w) = 0 /\ blob (this w) = None /\
  (length (pending w) <= 1)%nat /\ (forall r, pending w <> [xhr_request r]) /\
  0 < attempts (this w) /\ attempts (this w) = or_default (opt_attempts options) 5.
Proof.
  unfold constructor. destruct (validateOptions (initial_fields options)) eqn:Hv; [discriminate|].
  intros [= <-].
  assert (Ha : 0 < or_default (opt_attempts options) 5).
  { pose proof (or_default_nonzero (opt_attempts options) 5 ltac:(lia)) as Hnz.
    unfold validateOptions, initial_fields in Hv. simpl in Hv.
    destruct (match opt_endpoint options with
              | EndpointString s => bool_decide (s = "")
              | EndpointFunction => false
              end); [discriminate|].
    destruct (negb (or_default (opt_maxChunkSize options) 5120 =? 0)
              && ((or_default (opt_maxChunkSize options) 5120 <=? 0)
                  || negb (Z.rem (or_default (opt_maxChunkSize options) 5120) 256 =? 0)));
      [discriminate|].
    destruct (Z.eqb_spec (or_default (opt_attempts options) 5) 0); [contradiction|].
    destruct (Z.leb_spec (or_default (opt_attempts options) 5) 0); [discriminate|lia]. }
  unfold getEndpoint_then. simpl.
  destruct (opt_endpoint options); simpl; repeat split; auto; discriminate.
Qed.

(** X7. In every session the number of attemptFailure events dispatched
    so far equals the attempt counter, and the counter stays below the
    configured [attempts] plus one: [manageRetries] adds one to it only
    while it is below [attempts].  Over the whole upload, all chunks
    together, fewer than [attempts + 1] attemptFailure events are
    dispatched. *)
Theorem attemptFailure_events_within_budget
    (hasWindow : bool) (options : IOptions) (inputs : list Input) (w0 w : World) :
  constructor hasWindow options = inr w0 ->
  run w0 inputs = Some w ->
  Z.of_nat (count_events is_attemptFailure (dispatched w)) = attemptCount (this w) /\
  attemptCount (this w) < or_default (opt_attempts options) 5 + 1.
Proof.
  intros Hnew Hrun.
  apply constructor_starts_empty in Hnew as (Hd & _ & Hc & _ & _ & _ & _ & Hpos & Ha).
  pose proof (run_counts _ _ _ Hrun) as (_ & Hf & Hb).
  pose proof (run_invariant _ _ _ Hrun) as (_ & Hatt & _).
  rewrite Hd, Hc in Hf. change (count_events is_attemptFailure []) with 0%nat in Hf.
  rewrite <- Ha, <- Hatt. split; [lia|]. apply Z.lt_succ_r, Hb. lia.
Qed.

(** X8. In every session each request issued is announced by exactly one
    attempt event: the number of attempt events dispatched equals the
    number of requests sent. *)
Theorem one_attempt_event_per_request
    (hasWindow : bool) (options : IOptions) (inputs : list Input) (w0 w : World) :
  constructor hasWindow options = inr w0 ->
  run w0 inputs = Some w ->
  count_events is_attempt (dispatched w) = length (requests w).
Proof.
  intros Hnew Hrun.
  apply constructor_starts_empty in Hnew as (Hd & Hr & _).
  pose proof (run_counts _ _ _ Hrun) as (Ha & _).
  rewrite Hd, Hr in Ha. change (count_events is_attempt []) with 0%nat in Ha.
  simpl in Ha. lia.
Qed.

(** The three byte file: its chunk fails with 503, is retried and
    accepted. *)
Lemma attemptFailure_events_within_budget_witness :
  exists w0 w,
    constructor true (example_options 256 5) = inr w0 /\
    run w0 (small_file_ready
            ++ [timer_fires 0%nat] ++ fail_and_retry (Response 503)
            ++ [request_settles 0%nat (Response 200)]) = Some w /\
    Z.of_nat (count_events is_attemptFailure (dispatched w)) = attemptCount (this w) /\
    attemptCount (this w) < or_default (opt_attempts (example_options 256 5)) 5 + 1.
Proof.
  eexists _, _.
  split; [vm_compute; reflexivity|].
  split; [vm_compute; reflexivity|].
  eapply (attemptFailure_events_within_budget true (example_options 256 5)
           (small_file_ready
              ++ [timer_fires 0%nat] ++ fail_and_retry (Response 503)
              ++ [request_settles 0%nat (Response 200)]));
    [vm_compute; reflexivity|vm_compute; reflexivity].
Defined.

Lemma one_attempt_event_per_request_witness :
  exists w0 w,
    constructor true (example_options 256 5) = inr w0 /\
    run w0 (small_file_ready
            ++ [timer_fires 0%nat] ++ fail_and_retry (Response 503)
            ++ [request_settles 0%nat (Response 200)]) = Some w /\
    count_events is_attempt (dispatched w) = length (requests w).
Proof.
  eexists _, _.
  split; [vm_compute; reflexivity|].
  split; [vm_compute; reflexivity|].
  eapply (one_attempt_event_per_request true (example_options 256 5)
           (small_file_ready
              ++ [timer_fires 0%nat] ++ fail_and_retry (Response 503)
              ++ [request_settles 0%nat (Response 200)]));
    [vm_compute; reflexivity|vm_compute; reflexivity].
Defined.

(** ** One loop *)

Lemma blob_slice_within (b : Blob) (s e : Z) :
  0 <= s <= blob_size b -> blob_size (blob_slice b s e) <= blob_size b - s.
Proof.
  intros [Hs He]. unfold blob_slice.
  destruct (Z.ltb_spec s 0) as [?|_]; [lia|].
  replace (Z.min s (blob_size b)) with s by lia.
  unfold blob_size in *. rewrite length_take, length_drop. lia.
Qed.

Lemma blob_slice_takes (b : Blob) (s e : Z) :
  0 <= s <= blob_size b ->
  exists n, blob_slice b s e = take n (drop (Z.to_nat s) b) /\
            (0 <= e -> Z.of_nat n = Z.max (Z.min e (blob_size b) - s) 0).
Proof.
  intros Hs. unfold blob_slice.
  destruct (Z.ltb_spec s 0) as [?|_]; [lia|].
  replace (Z.min s (blob_size b)) with s by lia.
  eexists. split; [reflexivity|].
  intros He. destruct (Z.ltb_spec e 0) as [?|_]; [lia|]. lia.
Qed.

Lemma blob_slice_again (b : Blob) (s e : Z) :
  0 <= s <= blob_size b ->
  blob_slice b s (s + blob_size (blob_slice b s e)) = blob_slice b s e.
Proof.
  intros Hs. pose proof (blob_slice_within b s e Hs) as Hle.
  destruct (blob_slice_takes b s e Hs) as (n & Hn & _). rewrite Hn in *. clear Hn.
  set (c := take n (drop (Z.to_nat s) b)) in *.
  pose proof (blob_size_nonneg c) as Hpos.
  destruct (blob_slice_takes b s (s + blob_size c) Hs) as (m & -> & Hm).
  specialize (Hm ltac:(lia)).
  assert (Hmc : m = length c) by (unfold blob_size in *; lia).
  rewrite Hmc. unfold c. rewrite length_take.
  destruct (Nat.le_ge_cases n (length (drop (Z.to_nat s) b))) as [Hn|Hn].
  - rewrite Nat.min_l by exact Hn. reflexivity.
  - rewrite Nat.min_r by exact Hn. rewrite !take_ge by lia. reflexivity.
Qed.

Lemma only_task (l : list Task) (k : nat) (t : Task) :
  (length l <= 1)%nat -> l !! k = Some t -> l = [t] /\ delete k l = [].
Proof.
  destruct l as [|t0 [|t1 l]]; simpl; intros Hlen Hk; try lia.
  - discriminate.
  - destruct k as [|k]; simpl in Hk; [|discriminate].
    injection Hk as ->. auto.
Qed.

Lemma single_loop_sendChunks (w : World) :
  pending w = [] ->
  0 <= lastIndex (this w) ->
  match blob (this w) with
  | None => lastIndex (this w) = 0
  | Some b => lastIndex (this w) <= blob_size b
  end ->
  single_loop (sendChunks w).
Proof.
  intros Hp Hidx Hb. unfold single_loop, sendChunks, getChunk, schedule.
  destruct (gate_closed (this w)); simpl; rewrite Hp; simpl;
    repeat split; auto; intros r [=].
Qed.

Lemma single_loop_manageRetries (w : World) :
  pending w = [] ->
  0 <= lastIndex (this w) ->
  match blob (this w) with
  | None => lastIndex (this w) = 0
  | Some b => lastIndex (this w) <= blob_size b
  end ->
  single_loop (manageRetries w).
Proof.
  intros Hp Hidx Hb. unfold single_loop, manageRetries, dispatch, schedule, with_this.
  destruct (attemptCount (this w) <? attempts (this w)); simpl; rewrite Hp; simpl;
    repeat split; auto; intros r [=].
Qed.

Lemma single_loop_onRejected (w : World) :
  pending w = [] ->
  0 <= lastIndex (this w) ->
  match blob (this w) with
  | None => lastIndex (this w) = 0
  | Some b => lastIndex (this w) <= blob_size b
  end ->
  single_loop (onRejected w).
Proof.
  intros Hp Hidx Hb. unfold onRejected.
  destruct (gate_closed (this w)); [|apply single_loop_manageRetries; auto].
  unfold single_loop. rewrite Hp. simpl. repeat split; auto. intros r [=].
Qed.

(** A turn that does not enter the loop from outside keeps the loop
    single. *)
Lemma step_single_loop (w w' : World) (i : Input) :
  step w i = Some w' -> reenters_loop i = false -> single_loop w -> single_loop w'.
Proof.
  intros Hstep Hin (Hlen & Hidx & Hblob & Hflight).
  destruct i; simpl in Hstep, Hin; try discriminate.
  - (* addChunk *)
    injection Hstep as <-. unfold single_loop, with_this, addChunk. simpl.
    pose proof (blob_size_nonneg c) as Hc.
    destruct (blob (this w)) as [b|] eqn:Hb; simpl.
    + repeat split; auto; [rewrite blob_size_app; lia|].
      intros r Hr.
      destruct (Hflight r Hr) as (c0 & b0 & Hc0 & [= <-] & Hle & Hbody & Hbytes).
      pose proof (blob_size_nonneg c0) as Hc0pos.
      exists c0, (b ++ c). rewrite blob_size_app. repeat split; auto; [lia|].
      rewrite blob_slice_app by lia. exact Hbytes.
    + repeat split; auto; [lia|].
      intros r Hr. destruct (Hflight r Hr) as (c0 & b0 & _ & [=] & _).
  - (* finish *)
    injection Hstep as <-. unfold single_loop. simpl. auto.
  - (* pause *)
    injection Hstep as <-. unfold single_loop. simpl. auto.
  - (* offline event *)
    destruct (window w); [|discriminate]. injection Hstep as <-.
    unfold single_loop. simpl. auto.
  - (* the endpoint resolves *)
    destruct (pending w !! i) as [t|] eqn:Hk; [|discriminate].
    destruct (only_task _ _ _ Hlen Hk) as [_ Hdel].
    destruct t; try discriminate. injection Hstep as <-.
    apply single_loop_sendChunks; simpl; auto.
  - (* the reaction of a literal endpoint *)
    destruct (pending w !! i) as [t|] eqn:Hk; [|discriminate].
    destruct (only_task _ _ _ Hlen Hk) as [_ Hdel].
    destruct t; try discriminate. injection Hstep as <-.
    apply single_loop_sendChunks; simpl; auto.
  - (* a timer *)
    destruct (pending w !! i) as [t|] eqn:Hk; [|discriminate].
    destruct (only_task _ _ _ Hlen Hk) as [_ Hdel].
    destruct t; try discriminate; injection Hstep as <-.
    + unfold timer_checkAndResolve.
      change (this (unschedule i w)) with (this w).
      destruct (checkAndResolve (this w)) as [o|] eqn:Hsel.
      * destruct (timer_checkAndResolve_sends (unschedule i w) o Hsel)
          as (b & c & Hb & Hc & Hsend).
        unfold timer_checkAndResolve in Hsend.
        change (this (unschedule i w)) with (this w) in Hsend.
        rewrite Hsel in Hsend. rewrite Hsend.
        apply checkAndResolve_selects in Hsel as (b' & size & Hb' & -> & _).
        change (blob (this (unschedule i w))) with (blob (this w)) in Hb.
        rewrite Hb in Hb'. injection Hb' as <-.
        simpl in Hc. injection Hc as <-. rewrite Hb in Hblob.
        unfold single_loop. simpl. rewrite Hdel, Hb. simpl.
        repeat split; auto.
        intros r [= <-]. eexists _, b. repeat split; auto.
        { pose proof (blob_slice_within b (lastIndex (this w)) (lastIndex (this w) + size)
                        ltac:(lia)). lia. }
        { symmetry. apply blob_slice_again. lia. }
      * unfold single_loop, schedule. simpl. rewrite Hdel. simpl.
        repeat split; auto. intros r [=].
    + apply single_loop_sendChunks; simpl; auto.
  - (* upload progress *)
    destruct (pending w !! i) as [t|] eqn:Hk; [|discriminate].
    destruct t; try discriminate. injection Hstep as <-.
    unfold onprogress. destruct (blob (this w)) eqn:Hb; [|repeat split; auto; rewrite ?Hb; auto].
    unfold single_loop, dispatch. simpl. rewrite Hb. auto.
  - (* the request settles *)
    destruct (pending w !! i) as [t|] eqn:Hk; [|discriminate].
    destruct (only_task _ _ _ Hlen Hk) as [Hone Hdel].
    destruct t; try discriminate. injection Hstep as <-.
    destruct (Hflight _ Hone) as (c & b & Hc & Hb & Hle & _).
    rewrite Hb in Hblob. pose proof (blob_size_nonneg c) as Hcpos.
    destruct r as [statusCode|]; unfold settle.
    + unfold onFulfilled.
      destruct (includes SUCCESSFUL_CHUNK_UPLOAD_CODES statusCode).
      * simpl. rewrite Hc. simpl. rewrite Hb.
        destruct (allChunksReceived (this w)
                  && (blob_size b <=? lastIndex (this w) + blob_size c)); simpl.
        -- unfold single_loop. simpl. rewrite Hdel, Hb. simpl.
           repeat split; auto; try lia. intros r [=].
        -- match goal with
           | |- single_loop (dispatch ?e (sendChunks ?x)) =>
               assert (Hs : single_loop (sendChunks x))
                 by (apply single_loop_sendChunks; simpl; rewrite ?Hb; auto; lia)
           end.
           unfold single_loop, dispatch in *. simpl in *. exact Hs.
      * destruct (includes TEMPORARY_ERROR_CODES statusCode);
          change (this (unschedule i w)) with (this w);
          destruct (gate_closed (this w)); simpl.
        -- unfold single_loop. simpl. rewrite Hdel, Hb. simpl.
           repeat split; auto. intros r [=].
        -- apply single_loop_manageRetries; simpl; rewrite ?Hb; auto.
        -- unfold single_loop. simpl. rewrite Hdel, Hb. simpl.
           repeat split; auto. intros r [=].
        -- unfold single_loop. simpl. rewrite Hdel, Hb. simpl.
           repeat split; auto. intros r [=].
    + apply single_loop_onRejected; simpl; rewrite ?Hb; auto.
Qed.

Lemma run_single_loop (w w' : World) (inputs : list Input) :
  run w inputs = Some w' ->
  forallb (fun i => negb (reenters_loop i)) inputs = true ->
  single_loop w -> single_loop w'.
Proof.
  revert w. induction inputs as [|i rest IH]; intros w; simpl.
  - intros [= <-] _ H. exact H.
  - destruct (step w i) as [w1|] eqn:Hstep; [|discriminate].
    intros Hrun Hall Hinv. apply andb_prop in Hall as [Hi Hrest].
    apply negb_true_iff in Hi.
    eapply IH; eauto using step_single_loop.
Qed.

Lemma constructor_single_loop (hasWindow : bool) (options : IOptions) (w : World) :
  constructor hasWindow options = inr w -> single_loop w.
Proof.
  intros Hnew.
  apply constructor_starts_empty in Hnew as (_ & _ & _ & Hidx & Hb & Hlen & Hno & _).
  unfold single_loop. rewrite Hb, Hidx. repeat split; auto; try lia.
  intros r Hr. destruct (Hno r Hr).
Qed.

(** X9. In a session in which [resume()] is never called and no online
    event arrives, at most one thing is scheduled at any time (a promise
    reaction, a timer or a request): there is never more than one request
    in flight, and no timer runs beside a request. *)
Theorem at_most_one_request_in_flight
    (hasWindow : bool) (options : IOptions) (inputs : list Input) (w0 w : World) :
  constructor hasWindow options = inr w0 ->
  forallb (fun i => negb (reenters_loop i)) inputs = true ->
  run w0 inputs = Some w ->
  (length (pending w) <= 1)%nat.
Proof.
  intros Hnew Hall Hrun.
  apply constructor_single_loop in Hnew.
  exact (proj1 (run_single_loop _ _ _ Hrun Hall Hnew)).
Qed.

(** X10. In such a session the cursor never passes the end of the
    source, and the body of the request in flight is the stored chunk,
    which is exactly the bytes of the source from the cursor on and ends
    inside the source, also when more bytes have been added since. *)
Theorem cursor_stays_inside_the_source
    (hasWindow : bool) (options : IOptions) (inputs : list Input) (w0 w : World) :
  constructor hasWindow options = inr w0 ->
  forallb (fun i => negb (reenters_loop i)) inputs = true ->
  run w0 inputs = Some w ->
  0 <= lastIndex (this w) /\
  (forall b, blob (this w) = Some b -> lastIndex (this w) <= blob_size b) /\
  (forall r, pending w = [xhr_request r] ->
     exists c b, chunk (this w) = Some c /\ blob (this w) = Some b /\
                 lastIndex (this w) + blob_size c <= blob_size b /\
                 body r = c /\
                 c = blob_slice b (lastIndex (this w)) (lastIndex (this w) + blob_size c)).
Proof.
  intros Hnew Hall Hrun.
  apply constructor_single_loop in Hnew.
  destruct (run_single_loop _ _ _ Hrun Hall Hnew) as (_ & Hidx & Hb & Hflight).
  repeat split; auto.
  intros b Hsome. rewrite Hsome in Hb. exact Hb.
Qed.

Lemma at_most_one_request_in_flight_witness :
  exists w0 w,
    constructor true (example_options 256 5) = inr w0 /\
    forallb (fun i => negb (reenters_loop i)) (small_file_ready ++ [timer_fires 0%nat]) = true /\
    run w0 (small_file_ready ++ [timer_fires 0%nat]) = Some w /\
    (length (pending w) <= 1)%nat.
Proof.
  eexists _, _.
  split; [vm_compute; reflexivity|].
  split; [reflexivity|].
  split; [vm_compute; reflexivity|].
  eapply (at_most_one_request_in_flight true (example_options 256 5)
            (small_file_ready ++ [timer_fires 0%nat]));
    [vm_compute; reflexivity|reflexivity|vm_compute; reflexivity].
Defined.

Lemma cursor_stays_inside_the_source_witness :
  exists w0 w,
    constructor true (example_options 256 5) = inr w0 /\
    forallb (fun i => negb (reenters_loop i)) (small_file_ready ++ [timer_fires 0%nat]) = true /\
    run w0 (small_file_ready ++ [timer_fires 0%nat]) = Some w /\
    0 <= lastIndex (this w) /\
    (forall b, blob (this w) = Some b -> lastIndex (this w) <= blob_size b) /\
    (forall r, pending w = [xhr_request r] ->
       exists c b, chunk (this w) = Some c /\ blob (this w) = Some b /\
                   lastIndex (this w) + blob_size c <= blob_size b /\
                   body r = c /\
                   c = blob_slice b (lastIndex (this w)) (lastIndex (this w) + blob_size c)).
Proof.
  eexists _, _.
  split; [vm_compute; reflexivity|].
  split; [reflexivity|].
  split; [vm_compute; reflexivity|].
  eapply (cursor_stays_inside_the_source true (example_options 256 5)
            (small_file_ready ++ [timer_fires 0%nat]));
    [vm_compute; reflexivity|reflexivity|vm_compute; reflexivity].
Defined.

(** ** Two loops *)

Lemma sendChunk_request_of (w : World) :
  sendChunk w =
  match request_of (this w) with
  | Some r =>
      Normal (xhr r (dispatch (attempt (chunkCount (this w)) (js_div (blob_size (body r)) 1024)) w))
  | None => Abrupt w
  end.
Proof.
  unfold sendChunk, request_of.
  destruct (chunk (this w)); simpl; [|reflexivity].
  destruct (contentRange (this w)); reflexivity.
Qed.

(** What is selected is selected again as long as nothing changes; the
    same request is then built. *)
Lemma checkAndResolve_settled (o o' : UpChunk) :
  checkAndResolve o = Some o' ->
  checkAndResolve o' = Some o' /\
  exists r, request_of o' = Some r /\ body r = default [] (chunk o') /\
            lastIndex o' = lastIndex o /\ chunkCount o' = chunkCount o /\
            attemptCount o' = attemptCount o /\ attempts o' = attempts o /\
            paused o' = paused o /\ offline o' = offline o /\
            blob o' = blob o /\ allChunksReceived o' = allChunksReceived o /\
            delayBeforeAttempt o' = delayBeforeAttempt o.
Proof.
  intros Hsel.
  pose proof Hsel as Hsel'.
  apply checkAndResolve_selects in Hsel' as (b & size & Hb & Ho' & _).
  split.
  - assert (Hsame : blob o' = blob o /\ lastIndex o' = lastIndex o /\
                    maxChunkByteSize o' = maxChunkByteSize o /\
                    allChunksReceived o' = allChunksReceived o)
      by (rewrite Ho'; auto).
    destruct Hsame as (H1 & H2 & H3 & H4).
    destruct (checkAndResolve_again o o' o' Hsel H1 H2 H3 ltac:(congruence))
      as (o2 & Hsel2 & _ & Hch).
    rewrite Hsel2. f_equal.
    apply checkAndResolve_selects in Hsel2 as (b2 & size2 & _ & -> & _).
    simpl in Hch. rewrite Hch, Ho'. reflexivity.
  - subst o'. unfold request_of, contentRange. simpl. rewrite Hb.
    destruct (allChunksReceived o); simpl; eexists; repeat split; reflexivity.
Qed.

(** After [pause()] and [resume()] during the wait for data two timers of
    [getChunk] are pending; when data is there both select the same chunk
    and both send it. *)
Lemma waiting_twice_sends_twice (w : World) (o : UpChunk) (ms : Z) :
  pending w = [timeout_checkAndResolve ms] ->
  gate_closed (this w) = false ->
  checkAndResolve (this w) = Some o ->
  exists r c,
    request_of o = Some r /\ chunk o = Some c /\ body r = c /\
    run w [call_pause; call_resume; timer_fires 0%nat; timer_fires 0%nat] =
      Some {| this := o;
              dispatched := dispatched w
                ++ [attempt (chunkCount (this w)) (js_div (blob_size c) 1024);
                    attempt (chunkCount (this w)) (js_div (blob_size c) 1024)];
              pending := [xhr_request r; xhr_request r];
              requests := requests w ++ [r; r];
              window := window w |}.
Proof.
  intros Hp Hgate Hsel.
  destruct (checkAndResolve_settled _ _ Hsel)
    as (Hagain & r & Hr & Hbody & Hidx & Hcount & _).
  assert (Hc : exists c, chunk o = Some c).
  { apply checkAndResolve_selects in Hsel as (? & ? & _ & -> & _). simpl. eauto. }
  destruct Hc as [c Hc]. rewrite Hc in Hbody. simpl in Hbody.
  exists r, c. repeat split; auto.
  destruct w as [o0 events tasks sent win]. simpl in *. subst tasks.
  unfold gate_closed in Hgate. apply orb_false_elim in Hgate as [Hpaused Hoffline].
  assert (Ho0 : set_paused false (pause o0) = o0).
  { destruct o0. simpl in *. subst. reflexivity. }
  unfold run, step, resume, with_this. simpl.
  rewrite Ho0. unfold sendChunks, gate_closed. simpl. rewrite Hpaused, Hoffline. simpl.
  unfold timer_checkAndResolve. simpl. rewrite Hsel. simpl.
  rewrite sendChunk_request_of. simpl. rewrite Hr. simpl.
  rewrite Hagain. simpl.
  rewrite sendChunk_request_of. simpl. rewrite Hr. simpl.
  rewrite Hbody, Hcount.
  unfold xhr, dispatch, with_this, unschedule, getChunk, schedule. simpl.
  rewrite <- !app_assoc. reflexivity.
Qed.

(** X11. [pause()] followed by [resume()] while the engine is waiting for
    data starts a second polling loop beside the first; as soon as a chunk
    can be selected, both loops select it and the same request is sent
    twice, so two requests are in flight. *)
Theorem pause_resume_while_waiting_sends_chunk_twice
    (w : World) (o : UpChunk) (ms : Z) :
  pending w = [timeout_checkAndResolve ms] ->
  gate_closed (this w) = false ->
  checkAndResolve (this w) = Some o ->
  exists w' r,
    run w [call_pause; call_resume; timer_fires 0%nat; timer_fires 0%nat] = Some w' /\
    requests w' = requests w ++ [r; r] /\
    pending w' = [xhr_request r; xhr_request r] /\
    Some (body r) = chunk o /\
    lastIndex (this w') = lastIndex (this w).
Proof.
  intros Hp Hgate Hsel.
  destruct (waiting_twice_sends_twice w o ms Hp Hgate Hsel)
    as (r & c & Hr & Hc & Hbody & Hrun).
  eexists _, r. split; [exact Hrun|]. simpl. repeat split; auto.
  - congruence.
  - apply checkAndResolve_selects in Hsel as (? & ? & _ & -> & _). reflexivity.
Qed.

(** A success status for the request at the head of what is pending. *)
Lemma success_at_head (w : World) (r : XhrUrlConfig) (rest : list Task)
    (c b : Blob) (statusCode : Z) :
  pending w = xhr_request r :: rest ->
  chunk (this w) = Some c ->
  blob (this w) = Some b ->
  includes SUCCESSFUL_CHUNK_UPLOAD_CODES statusCode = true ->
  exists w' rest',
    step w (request_settles 0%nat (Response statusCode)) = Some w' /\
    pending w' = rest ++ rest' /\
    lastIndex (this w') = lastIndex (this w) + blob_size c /\
    chunkCount (this w') = chunkCount (this w) + 1 /\
    chunk (this w') = Some c /\ blob (this w') = Some b /\
    requests w' = requests w.
Proof.
  intros Hp Hc Hb Hs. unfold step. rewrite Hp.
  change ((xhr_request r :: rest) !! 0%nat) with (Some (xhr_request r)).
  unfold settle, onFulfilled. rewrite Hs.
  cbn [this with_this unschedule chunk set_chunkCount]. rewrite Hc.
  cbn [this with_this blob set_lastIndex set_chunkCount caught]. rewrite Hb.
  cbn [allChunksReceived lastIndex set_lastIndex set_chunkCount].
  destruct (allChunksReceived (this w) && _).
  - eexists _, []. split; [reflexivity|]. simpl. rewrite Hp, app_nil_r.
    repeat split; auto.
  - unfold sendChunks. destruct (gate_closed _).
    + eexists _, []. split; [reflexivity|]. simpl. rewrite Hp, app_nil_r.
      repeat split; auto.
    + eexists _, [_]. split; [reflexivity|]. simpl. rewrite Hp.
      repeat split; auto.
Qed.

(** X12. When both of these requests are answered with a success status,
    the cursor advances by the chunk size twice and the chunk number by
    two, although the chunk was one: the bytes after it are skipped. *)
Theorem two_loops_advance_cursor_twice
    (w : World) (o : UpChunk) (ms : Z) (c : Blob) (s1 s2 : Z) :
  pending w = [timeout_checkAndResolve ms] ->
  gate_closed (this w) = false ->
  checkAndResolve (this w) = Some o ->
  chunk o = Some c ->
  includes SUCCESSFUL_CHUNK_UPLOAD_CODES s1 = true ->
  includes SUCCESSFUL_CHUNK_UPLOAD_CODES s2 = true ->
  exists w',
    run w [call_pause; call_resume; timer_fires 0%nat; timer_fires 0%nat;
           request_settles 0%nat (Response s1); request_settles 0%nat (Response s2)]
      = Some w' /\
    lastIndex (this w') = lastIndex (this w) + 2 * blob_size c /\
    chunkCount (this w') = chunkCount (this w) + 2 /\
    length (requests w') = S (S (length (requests w))).
Proof.
  intros Hp Hgate Hsel Hc Hs1 Hs2.
  destruct (waiting_twice_sends_twice w o ms Hp Hgate Hsel)
    as (r & c' & Hr & Hc' & Hbody & Hrun).
  rewrite Hc in Hc'. injection Hc' as <-.
  destruct (checkAndResolve_settled _ _ Hsel)
    as (_ & _ & _ & _ & Hidx & Hcount & _ & _ & _ & _ & Hblob & _).
  assert (Hb : exists b, blob o = Some b).
  { apply checkAndResolve_selects in Hsel as (b & ? & Hb & -> & _). simpl. eauto. }
  destruct Hb as [b Hb].
  change [call_pause; call_resume; timer_fires 0%nat; timer_fires 0%nat;
          request_settles 0%nat (Response s1); request_settles 0%nat (Response s2)]
    with ([call_pause; call_resume; timer_fires 0%nat; timer_fires 0%nat]
          ++ [request_settles 0%nat (Response s1); request_settles 0%nat (Response s2)]).
  assert (Hrun_app : forall w1 l1 l2 w2, run w1 l1 = Some w2 -> run w1 (l1 ++ l2) = run w2 l2).
  { intros w1 l1. revert w1. induction l1 as [|i l1 IH]; intros w1 l2 w2; simpl.
    - intros [= ->]. reflexivity.
    - destruct (step w1 i); [apply IH|discriminate]. }
  rewrite (Hrun_app _ _ _ _ Hrun).
  match type of Hrun with
  | _ = Some ?x =>
      destruct (success_at_head x r [xhr_request r] c b s1 eq_refl Hc Hb Hs1)
        as (w1 & rest1 & Hstep1 & Hp1 & Hidx1 & Hcount1 & Hc1 & Hb1 & Hr1)
  end.
  destruct (success_at_head w1 r rest1 c b s2 Hp1 Hc1 Hb1 Hs2)
    as (w2 & rest2 & Hstep2 & Hp2 & Hidx2 & Hcount2 & _ & _ & Hr2).
  exists w2. cbn [run]. rewrite Hstep1, Hstep2.
  split; [reflexivity|].
  rewrite Hidx2, Hidx1, Hcount2, Hcount1, Hr2, Hr1. cbn [this requests].
  rewrite Hidx, Hcount, length_app. simpl. repeat split; lia.
Qed.

Lemma pause_resume_while_waiting_sends_chunk_twice_witness :
  exists w o,
    createUpload_then (example_options 256 5) small_file_ready = Some w /\
    pending w = [timeout_checkAndResolve 1000] /\
    gate_closed (this w) = false /\
    checkAndResolve (this w) = Some o /\
    exists w' r,
      run w [call_pause; call_resume; timer_fires 0%nat; timer_fires 0%nat] = Some w' /\
      requests w' = requests w ++ [r; r] /\
      pending w' = [xhr_request r; xhr_request r] /\
      Some (body r) = chunk o /\
      lastIndex (this w') = lastIndex (this w).
Proof.
  eexists _, _.
  split; [vm_compute; reflexivity|].
  split; [reflexivity|].
  split; [reflexivity|].
  split; [vm_compute; reflexivity|].
  eapply (pause_resume_while_waiting_sends_chunk_twice _ _ 1000);
    [reflexivity|reflexivity|vm_compute; reflexivity].
Defined.

(** The three byte file: after both answers the cursor is 6. *)
Lemma two_loops_advance_cursor_twice_witness :
  exists w o,
    createUpload_then (example_options 256 5) small_file_ready = Some w /\
    pending w = [timeout_checkAndResolve 1000] /\
    gate_closed (this w) = false /\
    checkAndResolve (this w) = Some o /\
    chunk o = Some three_bytes /\
    exists w',
      run w [call_pause; call_resume; timer_fires 0%nat; timer_fires 0%nat;
             request_settles 0%nat (Response 200); request_settles 0%nat (Response 200)]
        = Some w' /\
      lastIndex (this w') = lastIndex (this w) + 2 * blob_size three_bytes /\
      chunkCount (this w') = chunkCount (this w) + 2 /\
      length (requests w') = S (S (length (requests w))).
Proof.
  eexists _, _.
  split; [vm_compute; reflexivity|].
  split; [reflexivity|].
  split; [reflexivity|].
  split; [vm_compute; reflexivity|].
  split; [reflexivity|].
  eapply (two_loops_advance_cursor_twice _ _ 1000 three_bytes 200 200);
    [reflexivity|reflexivity|vm_compute; reflexivity|reflexivity|reflexivity|reflexivity].
Defined.

(** ** Using up the attempts *)

Lemma checkAndResolve_set_attemptCount (a : Z) (o : UpChunk) :
  checkAndResolve (set_attemptCount a o) = set_attemptCount a <$> checkAndResolve o.
Proof.
  unfold checkAndResolve. simpl. destruct (blob o); [|reflexivity].
  repeat case_match; reflexivity.
Qed.

Lemma request_of_set_attemptCount (a : Z) (o : UpChunk) :
  request_of (set_attemptCount a o) = request_of o.
Proof. reflexivity. Qed.

Lemma run_app (w w' : World) (l1 l2 : list Input) :
  run w l1 = Some w' -> run w (l1 ++ l2) = run w' l2.
Proof.
  revert w. induction l1 as [|i l1 IH]; intros w; simpl.
  - intros [= ->]. reflexivity.
  - destruct (step w i); [apply IH|discriminate].
Qed.

(** The three turns of a failed attempt. *)
Lemma transient_failure_settles (w : World) (r0 : XhrUrlConfig) (rest : list Task)
    (res : XhrResult) :
  pending w = xhr_request r0 :: rest ->
  gate_closed (this w) = false ->
  match res with
  | Failure => True
  | Response statusCode => includes TEMPORARY_ERROR_CODES statusCode = true
  end ->
  step w (request_settles 0%nat res) = Some (manageRetries (unschedule 0 w)).
Proof.
  intros Hp Hgate Hres. unfold step. rewrite Hp.
  change ((xhr_request r0 :: rest) !! 0%nat) with (Some (xhr_request r0)).
  cbv beta iota. f_equal.
  destruct res as [statusCode|]; unfold settle.
  - unfold onFulfilled.
    rewrite (includes_temporary_not_successful _ Hres), Hres.
    change (this (unschedule 0 w)) with (this w). rewrite Hgate. reflexivity.
  - unfold onRejected. change (this (unschedule 0 w)) with (this w).
    rewrite Hgate. reflexivity.
Qed.

Lemma retry_timer_fires (w : World) (ms : Z) (rest : list Task) :
  pending w = timeout_sendChunks ms :: rest ->
  gate_closed (this w) = false ->
  step w (timer_fires 0%nat) = Some (schedule (timeout_checkAndResolve 1000) (unschedule 0 w)).
Proof.
  intros Hp Hgate. unfold step. rewrite Hp.
  change ((timeout_sendChunks ms :: rest) !! 0%nat) with (Some (timeout_sendChunks ms)).
  cbv beta iota. unfold sendChunks.
  change (this (unschedule 0 w)) with (this w). rewrite Hgate. reflexivity.
Qed.

Lemma poll_timer_sends (w : World) (ms : Z) (rest : list Task) (o : UpChunk)
    (r : XhrUrlConfig) :
  pending w = timeout_checkAndResolve ms :: rest ->
  checkAndResolve (this w) = Some o ->
  request_of o = Some r ->
  step w (timer_fires 0%nat) =
    Some (xhr r (dispatch (attempt (chunkCount o) (js_div (blob_size (body r)) 1024))
                   (with_this (fun _ => o) (unschedule 0 w)))).
Proof.
  intros Hp Hsel Hr. unfold step. rewrite Hp.
  change ((timeout_checkAndResolve ms :: rest) !! 0%nat)
    with (Some (timeout_checkAndResolve ms)).
  cbv beta iota. unfold timer_checkAndResolve.
  change (this (unschedule 0 w)) with (this w). rewrite Hsel.
  rewrite sendChunk_request_of.
  change (this (with_this (fun _ => o) (unschedule 0 w))) with o.
  rewrite Hr. reflexivity.
Qed.

(** A failure with attempts left: the counter goes up, the event is
    dispatched, and after the delay the same request is sent again. *)
Lemma one_failed_attempt (w : World) (r0 r : XhrUrlConfig) (res : XhrResult) :
  pending w = [xhr_request r0] ->
  gate_closed (this w) = false ->
  checkAndResolve (this w) = Some (this w) ->
  request_of (this w) = Some r ->
  match res with
  | Failure => True
  | Response statusCode => includes TEMPORARY_ERROR_CODES statusCode = true
  end ->
  attemptCount (this w) < attempts (this w) ->
  exists w',
    run w (fail_and_retry res) = Some w' /\
    this w' = set_attemptCount (attemptCount (this w) + 1) (this w) /\
    (exists message,
       dispatched w' = dispatched w
         ++ [attemptFailure message (chunkCount (this w))
               (attempts (this w) - (attemptCount (this w) + 1));
             attempt (chunkCount (this w)) (js_div (blob_size (body r)) 1024)]) /\
    pending w' = [xhr_request r] /\
    requests w' = requests w ++ [r].
Proof.
  intros Hp Hgate Hsel Hr Hres Hlt.
  apply Z.ltb_lt in Hlt.
  unfold fail_and_retry. cbn [run].
  rewrite (transient_failure_settles w r0 [] res Hp Hgate Hres).
  set (w1 := manageRetries (unschedule 0 w)).
  assert (H1 : this w1 = set_attemptCount (attemptCount (this w) + 1) (this w) /\
               pending w1 = [timeout_sendChunks (delayBeforeAttempt (this w) * 1000)] /\
               requests w1 = requests w /\
               exists message,
                 dispatched w1 = dispatched w
                   ++ [attemptFailure message (chunkCount (this w))
                         (attempts (this w) - (attemptCount (this w) + 1))]).
  { unfold w1, manageRetries. change (this (unschedule 0 w)) with (this w).
    rewrite Hlt. cbn [this pending requests dispatched dispatch schedule with_this unschedule].
    rewrite Hp. repeat split; eauto. }
  destruct H1 as (Ht1 & Hp1 & Hr1 & message & Hd1). clearbody w1.
  rewrite (retry_timer_fires w1 _ [] Hp1) by (rewrite Ht1; exact Hgate).
  set (w2 := schedule (timeout_checkAndResolve 1000) (unschedule 0 w1)).
  assert (H2 : this w2 = this w1 /\ pending w2 = [timeout_checkAndResolve 1000] /\
               requests w2 = requests w1 /\ dispatched w2 = dispatched w1).
  { unfold w2. cbn [this pending requests dispatched schedule unschedule].
    rewrite Hp1. repeat split; reflexivity. }
  destruct H2 as (Ht2 & Hp2 & Hr2 & Hd2). clearbody w2.
  assert (Hsel2 : checkAndResolve (this w2) = Some (this w2)).
  { rewrite Ht2, Ht1, checkAndResolve_set_attemptCount, Hsel. reflexivity. }
  assert (Hreq2 : request_of (this w2) = Some r).
  { rewrite Ht2, Ht1, request_of_set_attemptCount. exact Hr. }
  rewrite (poll_timer_sends w2 _ [] _ r Hp2 Hsel2 Hreq2).
  eexists. split; [reflexivity|].
  cbn [this pending requests dispatched xhr dispatch with_this unschedule].
  rewrite Hp2, Hr2, Hr1, Hd2, Hd1, Ht2, Ht1. repeat split.
  exists message. rewrite <- app_assoc. reflexivity.
Qed.

Lemma failed_attempts (n : nat) (res : XhrResult) (r : XhrUrlConfig) :
  match res with
  | Failure => True
  | Response statusCode => includes TEMPORARY_ERROR_CODES statusCode = true
  end ->
  forall (w : World) (r0 : XhrUrlConfig),
  pending w = [xhr_request r0] ->
  gate_closed (this w) = false ->
  checkAndResolve (this w) = Some (this w) ->
  request_of (this w) = Some r ->
  attemptCount (this w) + Z.of_nat n <= attempts (this w) ->
  exists w' r1,
    run w (repeat_inputs n (fail_and_retry res)) = Some w' /\
    pending w' = [xhr_request r1] /\
    gate_closed (this w') = false /\
    checkAndResolve (this w') = Some (this w') /\
    request_of (this w') = Some r /\
    attemptCount (this w') = attemptCount (this w) + Z.of_nat n /\
    attempts (this w') = attempts (this w) /\
    chunkCount (this w') = chunkCount (this w) /\
    lastIndex (this w') = lastIndex (this w) /\
    requests w' = requests w ++ replicate n r /\
    count_events is_attemptFailure (dispatched w')
      = (count_events is_attemptFailure (dispatched w) + n)%nat /\
    length (dispatched w') = (length (dispatched w) + 2 * n)%nat.
Proof.
  intros Hres. induction n as [|n IH]; intros w r0 Hp Hgate Hsel Hr Hle.
  - exists w, r0. cbn [repeat_inputs run replicate].
    rewrite app_nil_r, Z.add_0_r, !Nat.add_0_r. repeat split; auto.
  - cbn [repeat_inputs].
    destruct (one_failed_attempt w r0 r res Hp Hgate Hsel Hr Hres ltac:(lia))
      as (w1 & Hrun1 & Ht1 & (message & Hd1) & Hp1 & Hr1).
    rewrite (run_app _ _ _ _ Hrun1).
    destruct (IH w1 r) as (w' & r1 & Hrun & Hp' & Hg' & Hs' & Hq' & Ha' & Hb' & Hc' & Hi'
                           & Hr' & Hn' & Hl').
    + exact Hp1.
    + rewrite Ht1. exact Hgate.
    + rewrite Ht1, checkAndResolve_set_attemptCount, Hsel. reflexivity.
    + rewrite Ht1, request_of_set_attemptCount. exact Hr.
    + rewrite Ht1. cbn [attemptCount attempts set_attemptCount]. lia.
    + exists w', r1. split; [exact Hrun|].
      rewrite Ha', Hb', Hc', Hi', Hr', Hn', Hl', Ht1, Hr1, Hd1.
      cbn [attemptCount attempts chunkCount lastIndex set_attemptCount replicate].
      rewrite count_events_app, length_app, <- app_assoc.
      unfold count_events at 2. cbn [List.filter is_attemptFailure length app].
      repeat split; auto; lia.
Qed.

(** X13. With one request in flight, the gate open and the source
    unchanged, a chunk that keeps failing with a network error or a
    transient status is retried until the attempt counter reaches the
    configured attempts: each of the remaining attempts dispatches one
    attemptFailure event and sends the same request again, and the
    failure after the last one dispatches the error event and leaves
    nothing scheduled, so no further request is made. *)
Theorem failing_chunk_exhausts_the_attempts
    (w : World) (r0 r : XhrUrlConfig) (res : XhrResult) (n : nat) :
  pending w = [xhr_request r0] ->
  gate_closed (this w) = false ->
  checkAndResolve (this w) = Some (this w) ->
  request_of (this w) = Some r ->
  match res with
  | Failure => True
  | Response statusCode => includes TEMPORARY_ERROR_CODES statusCode = true
  end ->
  attemptCount (this w) + Z.of_nat n = attempts (this w) ->
  exists w' message,
    run w (repeat_inputs n (fail_and_retry res) ++ [request_settles 0%nat res]) = Some w' /\
    pending w' = [] /\
    requests w' = requests w ++ replicate n r /\
    count_events is_attemptFailure (dispatched w')
      = (count_events is_attemptFailure (dispatched w) + n)%nat /\
    length (dispatched w') = (length (dispatched w) + 2 * n + 1)%nat /\
    last (dispatched w')
      = Some (error_noMoreRetries message (chunkCount (this w)) (attempts (this w))) /\
    lastIndex (this w') = lastIndex (this w) /\
    attemptCount (this w') = attempts (this w).
Proof.
  intros Hp Hgate Hsel Hr Hres Hn.
  destruct (failed_attempts n res r Hres w r0 Hp Hgate Hsel Hr ltac:(lia))
    as (w1 & r1 & Hrun & Hp1 & Hg1 & _ & _ & Ha1 & Hb1 & Hc1 & Hi1 & Hr1 & Hn1 & Hl1).
  rewrite (run_app _ _ _ _ Hrun). cbn [run].
  rewrite (transient_failure_settles w1 r1 [] res Hp1 Hg1 Hres).
  unfold manageRetries. change (this (unschedule 0 w1)) with (this w1).
  replace (attemptCount (this w1) <? attempts (this w1)) with false
    by (symmetry; apply Z.ltb_ge; lia).
  eexists _, _. split; [reflexivity|].
  cbn [pending requests dispatched this dispatch unschedule].
  rewrite Hp1, Hr1, count_events_app, length_app, last_snoc, Hn1, Hl1, Hc1, Hi1, Ha1.
  replace (attemptCount (this w) + Z.of_nat n) with (attempts (this w)) by lia.
  cbn. repeat split; auto; lia.
Qed.

(** The three byte file with two attempts: its request fails three times
    with 503. *)
Lemma failing_chunk_exhausts_the_attempts_witness :
  exists w r0 r,
    createUpload_then (example_options 256 2) (small_file_ready ++ [timer_fires 0%nat])
      = Some w /\
    pending w = [xhr_request r0] /\
    gate_closed (this w) = false /\
    checkAndResolve (this w) = Some (this w) /\
    request_of (this w) = Some r /\
    attemptCount (this w) + Z.of_nat 2 = attempts (this w) /\
    exists w' message,
      run w (repeat_inputs 2 (fail_and_retry (Response 503))
             ++ [request_settles 0%nat (Response 503)]) = Some w' /\
      pending w' = [] /\
      requests w' = requests w ++ replicate 2 r /\
      count_events is_attemptFailure (dispatched w')
        = (count_events is_attemptFailure (dispatched w) + 2)%nat /\
      length (dispatched w') = (length (dispatched w) + 2 * 2 + 1)%nat /\
      last (dispatched w')
        = Some (error_noMoreRetries message (chunkCount (this w)) (attempts (this w))) /\
      lastIndex (this w') = lastIndex (this w) /\
      attemptCount (this w') = attempts (this w).
Proof.
  eexists _, _, _.
  split; [vm_compute; reflexivity|].
  split; [reflexivity|].
  split; [reflexivity|].
  split; [vm_compute; reflexivity|].
  split; [vm_compute; reflexivity|].
  split; [reflexivity|].
  eapply (failing_chunk_exhausts_the_attempts _ _ _ (Response 503) 2);
    [reflexivity|reflexivity|vm_compute; reflexivity|vm_compute; reflexivity
    |reflexivity|reflexivity].
Defined.

(** ** Progress values *)

Lemma inject_Z_pos (z : Z) : 0 < z -> (0 < inject_Z z)%Q.
Proof. intros H. rewrite <- (Zlt_Qlt 0). exact H. Qed.

(** ** Rounding to binary64 *)

Lemma Qpower_2_pos (e : Z) : (0 < Qpower 2 e)%Q.
Proof. apply Qpower_0_lt. reflexivity. Qed.

Lemma Qpower_2_succ (e : Z) : (Qpower 2 (e + 1) == 2 * Qpower 2 e)%Q.
Proof. rewrite Qpower_plus by discriminate. change (Qpower 2 1) with 2%Q. ring. Qed.

Lemma Qpower_2_inject (k : Z) : 0 <= k -> (Qpower 2 k == inject_Z (2 ^ k))%Q.
Proof. intros Hk. rewrite Zpower_Qpower by exact Hk. reflexivity. Qed.

Lemma round_half_even_near (y : Q) :
  (y - (1 # 2) <= inject_Z (round_half_even y) <= y + (1 # 2))%Q.
Proof.
  unfold round_half_even.
  pose proof (Qfloor_le y) as Hlo. pose proof (Qlt_floor y) as Hhi.
  rewrite inject_Z_plus in Hhi. change (inject_Z 1) with 1%Q in Hhi.
  set (f := inject_Z (Qfloor y)) in *.
  destruct (y - f ?= 1 # 2)%Q eqn:Hc.
  - apply Qeq_alt in Hc.
    destruct (Z.even (Qfloor y)); rewrite ?inject_Z_plus; fold f;
      change (inject_Z 1) with 1%Q; clearbody f; lra.
  - apply Qlt_alt in Hc. fold f. clearbody f. lra.
  - apply Qgt_alt in Hc. rewrite inject_Z_plus. fold f.
    change (inject_Z 1) with 1%Q. clearbody f. lra.
Qed.

Lemma round_half_even_le (y : Q) (M : Z) :
  (y <= inject_Z M)%Q -> round_half_even y <= M.
Proof.
  intros Hle. unfold round_half_even.
  pose proof (Qfloor_resp_le _ _ Hle) as Hf. rewrite Qfloor_Z in Hf.
  assert (Hup : (1 # 2 <= y - inject_Z (Qfloor y))%Q -> Qfloor y + 1 <= M).
  { intros Hhalf. destruct (Z.eq_dec (Qfloor y) M) as [Heq|Hne]; [|lia].
    rewrite Heq in Hhalf. lra. }
  destruct (y - inject_Z (Qfloor y) ?= 1 # 2)%Q eqn:Hc.
  - apply Qeq_alt in Hc. destruct (Z.even (Qfloor y)); [exact Hf|].
    apply Hup. rewrite Hc. apply Qle_refl.
  - exact Hf.
  - apply Qgt_alt in Hc. apply Hup. apply Qlt_le_weak. exact Hc.
Qed.

Lemma binary64_exponent_spec (x : Q) :
  (0 < x)%Q ->
  (inject_Z (2 ^ 52) * Qpower 2 (binary64_exponent x) <= x
   < inject_Z (2 ^ 53) * Qpower 2 (binary64_exponent x))%Q.
Proof.
  intros Hx. unfold binary64_exponent.
  destruct x as [n d]. cbn [Qnum Qden].
  assert (Hn : 0 < n) by (unfold Qlt in Hx; simpl in Hx; lia).
  set (ln := Z.log2 n). set (ld := Z.log2 (Z.pos d)).
  pose proof (Z.log2_nonneg n) as Hln0. pose proof (Z.log2_nonneg (Z.pos d)) as Hld0.
  fold ln in Hln0. fold ld in Hld0.
  destruct (Z.log2_spec n Hn) as [Hn1 Hn2]. fold ln in Hn1, Hn2.
  destruct (Z.log2_spec (Z.pos d) ltac:(lia)) as [Hd1 Hd2]. fold ld in Hd1, Hd2.
  rewrite Zle_Qle in Hn1, Hd1. rewrite Zlt_Qlt in Hn2, Hd2.
  rewrite <- Qpower_2_inject in Hn1, Hn2, Hd1, Hd2 by lia.
  set (e0 := ln - ld - 52).
  replace (Z.succ ln) with ((e0 + 53) + ld) in Hn2 by (unfold e0; lia).
  replace ln with ((e0 + 51) + Z.succ ld) in Hn1 by (unfold e0; lia).
  rewrite Qpower_plus in Hn1, Hn2 by discriminate.
  replace (e0 + 53) with (53 + e0) in Hn2 by lia.
  replace (e0 + 51) with (51 + e0) in Hn1 by lia.
  rewrite Qpower_plus in Hn1, Hn2 by discriminate.
  rewrite (Qpower_2_inject 53), (Qpower_2_inject 51) in * by lia.
  pose proof (Qpower_2_pos e0) as Hp0.
  pose proof (Qpower_2_pos ld) as Hpd. pose proof (Qpower_2_pos (Z.succ ld)) as Hpd1.
  assert (Hx' : (n # d == inject_Z n / inject_Z (Z.pos d))%Q) by apply Qmake_Qdiv.
  assert (HD : (0 < inject_Z (Z.pos d))%Q) by (rewrite <- (Zlt_Qlt 0); lia).
  assert (Hlow : (inject_Z (2 ^ 51) * Qpower 2 e0 < n # d)%Q).
  { rewrite Hx'. apply Qlt_shift_div_l; [exact HD|].
    eapply Qlt_le_trans; [|exact Hn1].
    apply Qmult_lt_l; [|exact Hd2].
    apply Qmult_lt_0_compat; [reflexivity|exact Hp0]. }
  assert (Hupp : (n # d < inject_Z (2 ^ 53) * Qpower 2 e0)%Q).
  { rewrite Hx'. apply Qlt_shift_div_r; [exact HD|].
    eapply Qlt_le_trans; [exact Hn2|].
    apply Qmult_le_l; [|exact Hd1].
    apply Qmult_lt_0_compat; [reflexivity|exact Hp0]. }
  assert (Hy : (n # d == (n # d) / Qpower 2 e0 * Qpower 2 e0)%Q).
  { field. intros H0. rewrite H0 in Hp0. discriminate. }
  set (y0 := ((n # d) / Qpower 2 e0)%Q) in *.
  destruct (Qle_bool (inject_Z (2 ^ 52)) y0) eqn:Htest.
  - apply Qle_bool_iff in Htest. split; [|exact Hupp].
    rewrite Hy. apply Qmult_le_compat_r; [exact Htest|apply Qlt_le_weak; exact Hp0].
  - assert (Hlt : (y0 < inject_Z (2 ^ 52))%Q).
    { apply Qnot_le_lt. intros Hle. apply Qle_bool_iff in Hle. congruence. }
    assert (Hupp2 : (n # d < inject_Z (2 ^ 52) * Qpower 2 e0)%Q).
    { rewrite Hy. apply Qmult_lt_compat_r; [exact Hp0|exact Hlt]. }
    pose proof (Qpower_2_succ (e0 - 1)) as Hhalf.
    replace (e0 - 1 + 1) with e0 in Hhalf by lia.
    pose proof (Qpower_2_pos (e0 - 1)) as Hp1.
    revert Hlow Hupp2 Hhalf Hp1.
    generalize (Qpower 2 (e0 - 1)) (Qpower 2 e0) (n # d). intros p1 p0 x.
    change (inject_Z (2 ^ 51)) with (2251799813685248 # 1).
    change (inject_Z (2 ^ 52)) with (4503599627370496 # 1).
    change (inject_Z (2 ^ 53)) with (9007199254740992 # 1).
    intros. lra.
Qed.

(** A positive number and its nearest binary64 value differ by at most
    the fraction 2^-53 of the number. *)
Lemma binary64_near (x : Q) :
  (0 < x)%Q ->
  (x - x * (1 # 9007199254740992) <= binary64 x <= x + x * (1 # 9007199254740992))%Q.
Proof.
  intros Hx. unfold binary64.
  assert (Hn : 0 < Qnum x) by (unfold Qlt in Hx; simpl in Hx; lia).
  destruct (Z.eqb_spec (Qnum x) 0) as [?|_]; [lia|].
  assert (Ha : Qabs x = x).
  { destruct x as [n d]. simpl in *. rewrite Z.abs_eq by lia. reflexivity. }
  rewrite Ha. cbv zeta.
  replace (Z.sgn (Qnum x)) with 1 by (symmetry; apply Z.sgn_pos; exact Hn).
  rewrite Z.mul_1_l, Qred_correct.
  destruct (binary64_exponent_spec x Hx) as [Hlo _].
  pose proof (Qpower_2_pos (binary64_exponent x)) as Hp.
  set (p := Qpower 2 (binary64_exponent x)) in *.
  pose proof (round_half_even_near (x / p)) as [Hm1 Hm2].
  set (m := inject_Z (round_half_even (x / p))) in *.
  assert (Hy : (x / p * p == x)%Q).
  { field. intros H0. rewrite H0 in Hp. discriminate. }
  apply (Qmult_le_compat_r _ _ p) in Hm1, Hm2; try (apply Qlt_le_weak; exact Hp).
  assert (H1 : ((x / p - (1 # 2)) * p == x - (1 # 2) * p)%Q)
    by (rewrite <- Hy at 2; ring).
  assert (H2 : ((x / p + (1 # 2)) * p == x + (1 # 2) * p)%Q)
    by (rewrite <- Hy at 2; ring).
  rewrite H1 in Hm1. rewrite H2 in Hm2.
  change (inject_Z (2 ^ 52)) with (4503599627370496 # 1) in Hlo.
  clear H1 H2 Hy Ha. set (t := (m * p)%Q) in *. clearbody t p. lra.
Qed.

(** Rounding does not pass an integer that is itself a binary64 value. *)
Lemma binary64_le_integer (x : Q) (N : Z) :
  (0 < x)%Q -> (x <= inject_Z N)%Q -> N <= 2 ^ 52 ->
  (binary64 x <= inject_Z N)%Q.
Proof.
  intros Hx Hle HN. unfold binary64.
  assert (Hn : 0 < Qnum x) by (unfold Qlt in Hx; simpl in Hx; lia).
  destruct (Z.eqb_spec (Qnum x) 0) as [?|_]; [lia|].
  assert (Ha : Qabs x = x).
  { destruct x as [n d]. simpl in *. rewrite Z.abs_eq by lia. reflexivity. }
  rewrite Ha. cbv zeta.
  replace (Z.sgn (Qnum x)) with 1 by (symmetry; apply Z.sgn_pos; exact Hn).
  rewrite Z.mul_1_l, Qred_correct.
  destruct (binary64_exponent_spec x Hx) as [Hlo _].
  set (e := binary64_exponent x) in *.
  pose proof (Qpower_2_pos e) as Hp.
  assert (He : e <= 0).
  { destruct (Z.le_gt_cases e 0) as [?|Hgt]; [assumption|exfalso].
    assert (H2 : (2 <= Qpower 2 e)%Q).
    { rewrite Qpower_2_inject by lia. change 2%Q with (inject_Z 2).
      rewrite <- Zle_Qle. change 2 with (2 ^ 1) at 1.
      apply Z.pow_le_mono_r; lia. }
    rewrite Zle_Qle in HN.
    change (inject_Z (2 ^ 52)) with (4503599627370496 # 1) in *.
    revert Hlo H2 Hle HN. generalize (Qpower 2 e) (inject_Z N). intros p n. lra. }
  assert (Hinv : (/ Qpower 2 e == inject_Z (2 ^ (- e)))%Q).
  { rewrite <- Qpower_opp. apply Qpower_2_inject. lia. }
  assert (Hy : (x / Qpower 2 e <= inject_Z (N * 2 ^ (- e)))%Q).
  { rewrite inject_Z_mult, <- Hinv. unfold Qdiv.
    apply Qmult_le_compat_r; [exact Hle|].
    apply Qlt_le_weak, Qinv_lt_0_compat. exact Hp. }
  apply round_half_even_le in Hy. rewrite Zle_Qle, inject_Z_mult, <- Hinv in Hy.
  apply (Qmult_le_compat_r _ _ (Qpower 2 e)) in Hy; [|apply Qlt_le_weak; exact Hp].
  eapply Qle_trans; [exact Hy|]. apply Qle_lteq. right. field.
  intros H0. rewrite H0 in Hp. discriminate.
Qed.

(** X16. While a request is uploading, the progress event carries
    [((lastIndex + loaded) / size) * 100] as binary64 computes it: the
    quotient is rounded, then the product.  For a source below 2^53
    bytes and cursor + loaded within the source, the value lies between
    0 and 100, is within the fraction 2^-51 of the exact percentage, and
    is exactly 0 at no bytes and exactly 100 at all bytes. *)
Theorem upload_progress_is_rounded_percentage (w : World) (b : Blob) (loaded : Z) :
  blob (this w) = Some b ->
  0 < blob_size b < 2 ^ 53 ->
  0 <= lastIndex (this w) + loaded <= blob_size b ->
  exists q,
    onprogress loaded w = dispatch (progress (Finite q)) w /\
    (0 <= q <= 100)%Q /\
    (let exact := (inject_Z (100 * (lastIndex (this w) + loaded))
                   / inject_Z (blob_size b))%Q in
     (Qabs (q - exact) <= exact * (1 # 2251799813685248))%Q) /\
    (lastIndex (this w) + loaded = 0 -> q = 0%Q) /\
    (lastIndex (this w) + loaded = blob_size b -> q = 100%Q).
Proof.
  intros Hb [Hsize _] [Hlo Hhi]. unfold onprogress. rewrite Hb.
  unfold js_div_double, js_mul_double, js_div.
  destruct (Z.eqb_spec (blob_size b) 0) as [?|_]; [lia|]. unfold js_mul.
  eexists. split; [reflexivity|].
  pose proof (inject_Z_pos _ Hsize) as Hpos.
  set (a := lastIndex (this w) + loaded) in *.
  set (s := blob_size b) in *.
  assert (Hs0 : ~ (inject_Z s == 0)%Q) by (intros H0; rewrite H0 in Hpos; discriminate).
  assert (Hexact : (inject_Z (100 * a) / inject_Z s == 100 * (inject_Z a / inject_Z s))%Q).
  { rewrite inject_Z_mult. change (inject_Z 100) with 100%Q. field. exact Hs0. }
  assert (Hends : a = s ->
                  binary64 (Qred (binary64 (Qred (inject_Z a / inject_Z s)) * inject_Z 100))
                  = 100%Q).
  { intros ->. rewrite (Qred_complete (inject_Z s / inject_Z s) 1) by (field; exact Hs0).
    vm_compute. reflexivity. }
  destruct (Z.eq_dec a 0) as [Hz|Hnz].
  - assert (Hq : binary64 (Qred (binary64 (Qred (inject_Z a / inject_Z s)) * inject_Z 100))
                 = 0%Q).
    { rewrite Hz. rewrite (Qred_complete (inject_Z 0 / inject_Z s) 0) by (field; exact Hs0).
      vm_compute. reflexivity. }
    rewrite Hq. split; [split; discriminate|]. split.
    + cbv zeta. rewrite Hexact, Hz.
      assert (H0 : (100 * (inject_Z 0 / inject_Z s) == 0)%Q) by (field; exact Hs0).
      rewrite H0. discriminate.
    + split; [reflexivity|]. intros Heq. lia.
  - assert (Ha : (0 < inject_Z a)%Q) by (apply inject_Z_pos; lia).
    set (x1 := Qred (inject_Z a / inject_Z s)) in *.
    assert (Hx1 : (x1 == inject_Z a / inject_Z s)%Q) by apply Qred_correct.
    assert (Hx1pos : (0 < x1)%Q).
    { rewrite Hx1. apply Qlt_shift_div_l; [exact Hpos|]. rewrite Qmult_0_l. exact Ha. }
    assert (Hx1le : (x1 <= inject_Z 1)%Q).
    { rewrite Hx1. apply Qle_shift_div_r; [exact Hpos|].
      change (inject_Z 1) with 1%Q. rewrite Qmult_1_l, <- Zle_Qle. exact Hhi. }
    pose proof (binary64_near x1 Hx1pos) as [Hd1 Hd2].
    pose proof (binary64_le_integer x1 1 Hx1pos Hx1le ltac:(lia)) as Hd3.
    set (d1 := binary64 x1) in *.
    set (x2 := Qred (d1 * inject_Z 100)) in *.
    assert (Hx2 : (x2 == 100 * d1)%Q).
    { unfold x2. rewrite Qred_correct. change (inject_Z 100) with 100%Q. ring. }
    change (inject_Z 1) with 1%Q in *.
    assert (Hx2pos : (0 < x2)%Q) by (rewrite Hx2; clearbody d1 x1; lra).
    assert (Hx2le : (x2 <= inject_Z 100)%Q)
      by (rewrite Hx2; change (inject_Z 100) with 100%Q; clearbody d1; lra).
    pose proof (binary64_near x2 Hx2pos) as [Hp1 Hp2].
    pose proof (binary64_le_integer x2 100 Hx2pos Hx2le ltac:(lia)) as Hp3.
    change (inject_Z 100) with 100%Q in *.
    split; [|split; [|split; [intros; lia|exact Hends]]].
    + clear Hends. set (p := binary64 x2) in *. clearbody p x2 d1 x1. lra.
    + cbv zeta. rewrite Hexact, <- Hx1. apply Qabs_Qle_condition.
      clear Hends. set (p := binary64 x2) in *. clearbody p x2 d1 x1. lra.
Qed.

Lemma upload_progress_is_rounded_percentage_witness :
  exists w,
    createUpload_then (example_options 256 5) (small_file_ready ++ [timer_fires 0%nat])
      = Some w /\
    blob (this w) = Some three_bytes /\
    0 < blob_size three_bytes < 2 ^ 53 /\
    0 <= lastIndex (this w) + 1 <= blob_size three_bytes /\
    exists q,
      onprogress 1 w = dispatch (progress (Finite q)) w /\
      (0 <= q <= 100)%Q /\
      (let exact := (inject_Z (100 * (lastIndex (this w) + 1))
                     / inject_Z (blob_size three_bytes))%Q in
       (Qabs (q - exact) <= exact * (1 # 2251799813685248))%Q) /\
      (lastIndex (this w) + 1 = 0 -> q = 0%Q) /\
      (lastIndex (this w) + 1 = blob_size three_bytes -> q = 100%Q).
Proof.
  eexists.
  split; [vm_compute; reflexivity|].
  split; [reflexivity|].
  split; [split; reflexivity|].
  split; [split; discriminate|].
  apply upload_progress_is_rounded_percentage;
    [reflexivity|split; reflexivity|split; discriminate].
Defined.

(** One byte of three: 33.33333333333333 and not 100/3. *)
Lemma one_byte_of_three :
  js_mul_double (js_div_double 1 3) 100 = Finite (2345624805922133 # 70368744177664) /\
  js_mul (js_div 1 3) 100 = Finite (100 # 3).
Proof. split; vm_compute; reflexivity. Qed.

(** X17. The progress value dispatched after a successful chunk is 100
    as soon as the cursor has reached half of the source size, and 0
    before that; no other value occurs while the cursor is inside a
    non-empty source. *)
Theorem success_progress_switches_at_half (lastIndex size : Z) :
  0 <= lastIndex <= size -> 0 < size ->
  percentProgress lastIndex size
  = Finite (if size <=? 2 * lastIndex then inject_Z 100 else 0).
Proof.
  intros [Hlo Hhi] Hsize. unfold percentProgress, js_div.
  destruct (Z.eqb_spec size 0) as [?|_]; [lia|]. unfold Math_round, js_mul.
  pose proof (inject_Z_pos _ Hsize) as Hpos.
  set (q := Qred (inject_Z lastIndex / inject_Z size)).
  assert (Hq : (q == inject_Z lastIndex / inject_Z size)%Q) by apply Qred_correct.
  clearbody q.
  assert (H1 : (q <= 1)%Q).
  { rewrite Hq. apply Qle_shift_div_r; [exact Hpos|]. rewrite Qmult_1_l, <- Zle_Qle. exact Hhi. }
  destruct (Z.leb_spec size (2 * lastIndex)) as [Hhalf|Hhalf].
  - assert (Hge : ((1 # 2) <= q)%Q).
    { rewrite Hq. apply Qle_shift_div_l; [exact Hpos|].
      unfold Qle, Qmult, inject_Z. simpl. lia. }
    assert (Hfloor : Qfloor (q + (1 # 2)) = 1).
    { apply Z.le_antisymm.
      - change (Qfloor (q + (1 # 2)) <= Qfloor (3 # 2)). apply Qfloor_resp_le. lra.
      - change (Qfloor 1 <= Qfloor (q + (1 # 2))). apply Qfloor_resp_le. lra. }
    rewrite Hfloor. reflexivity.
  - assert (Hlt : (q < 1 # 2)%Q).
    { rewrite Hq. apply Qlt_shift_div_r; [exact Hpos|].
      unfold Qlt, Qmult, inject_Z. simpl. lia. }
    assert (H0 : (0 <= q)%Q).
    { rewrite Hq. apply Qle_shift_div_l; [exact Hpos|].
      rewrite Qmult_0_l, <- (Zle_Qle 0). exact Hlo. }
    assert (Hfloor : Qfloor (q + (1 # 2)) = 0).
    { apply Z.le_antisymm.
      - pose proof (Qfloor_le (q + (1 # 2))) as Hfl.
        assert (Hz : (inject_Z (Qfloor (q + (1 # 2))) < inject_Z 1)%Q)
          by (change (inject_Z 1) with 1%Q; lra).
        rewrite <- Zlt_Qlt in Hz. lia.
      - change (Qfloor 0 <= Qfloor (q + (1 # 2))). apply Qfloor_resp_le. lra. }
    rewrite Hfloor. reflexivity.
Qed.

Lemma success_progress_switches_at_half_witness :
  percentProgress 307199 614400 = Finite 0 /\
  percentProgress 307200 614400 = Finite (inject_Z 100).
Proof.
  split.
  - apply (success_progress_switches_at_half 307199 614400); lia.
  - apply (success_progress_switches_at_half 307200 614400); lia.
Defined.

(** ** Connectivity *)

(** X19. An offline event sets the flag and dispatches [offline]; the
    online event that follows clears it, dispatches [online] and enters
    the loop: unless the upload is paused, one more timer of [getChunk]
    is scheduled beside whatever is still pending.  An online event
    without a preceding offline state changes nothing. *)
Theorem offline_then_online_enters_the_loop (w : World) :
  window w = true ->
  (exists w',
     run w [window_offline; window_online] = Some w' /\
     dispatched w' = dispatched w ++ [ev_offline; ev_online] /\
     offline (this w') = false /\
     paused (this w') = paused (this w) /\
     lastIndex (this w') = lastIndex (this w) /\
     requests w' = requests w /\
     pending w' = pending w
                  ++ (if paused (this w) then [] else [timeout_checkAndResolve 1000])) /\
  (offline (this w) = false -> step w window_online = Some w).
Proof.
  intros Hwin. split.
  - cbn [run]. unfold step at 1. rewrite Hwin.
    unfold step at 1. change (window (on_window_offline w)) with (window w). rewrite Hwin.
    unfold on_window_online.
    change (offline (this (on_window_offline w))) with true. cbn [negb].
    unfold sendChunks, gate_closed.
    change (paused (this (dispatch ev_online
                            (with_this (set_offline false) (on_window_offline w)))))
      with (paused (this w)).
    change (offline (this (dispatch ev_online
                             (with_this (set_offline false) (on_window_offline w)))))
      with false.
    rewrite orb_false_r.
    destruct (paused (this w)) eqn:Hpaused; eexists; (split; [reflexivity|]);
      unfold on_window_offline, getChunk, schedule, dispatch, with_this;
      cbn [this dispatched pending requests window offline paused lastIndex
           set_offline];
      rewrite <- ?app_assoc, ?app_nil_r, ?Hpaused; repeat split; reflexivity.
  - intros Hon. unfold step, on_window_online. rewrite Hwin, Hon. reflexivity.
Qed.

Lemma offline_then_online_enters_the_loop_witness :
  exists w,
    createUpload_then (example_options 256 5) small_file_ready = Some w /\
    window w = true /\
    (exists w',
       run w [window_offline; window_online] = Some w' /\
       dispatched w' = dispatched w ++ [ev_offline; ev_online] /\
       offline (this w') = false /\
       paused (this w') = paused (this w) /\
       lastIndex (this w') = lastIndex (this w) /\
       requests w' = requests w /\
       pending w' = pending w
                    ++ (if paused (this w) then [] else [timeout_checkAndResolve 1000])) /\
    (offline (this w) = false -> step w window_online = Some w).
Proof.
  eexists.
  split; [vm_compute; reflexivity|].
  split; [reflexivity|].
  apply offline_then_online_enters_the_loop. reflexivity.
Defined.

(** ** Answers with the gate open *)

(** A success status with the gate open. *)
Lemma success_settles
    (w : World) (k : nat) (options : XhrUrlConfig) (c b : Blob) (statusCode : Z) :
  pending w !! k = Some (xhr_request options) ->
  gate_closed (this w) = false ->
  chunk (this w) = Some c ->
  blob (this w) = Some b ->
  includes SUCCESSFUL_CHUNK_UPLOAD_CODES statusCode = true ->
  exists w',
    step w (request_settles k (Response statusCode)) = Some w' /\
    lastIndex (this w') = lastIndex (this w) + blob_size c /\
    chunkCount (this w') = chunkCount (this w) + 1 /\
    attemptCount (this w') = attemptCount (this w) /\
    requests w' = requests w /\
    let p := progress (percentProgress (lastIndex (this w) + blob_size c) (blob_size b)) in
    if allChunksReceived (this w) && (blob_size b <=? lastIndex (this w) + blob_size c)
    then dispatched w' = dispatched w ++ [success; p] /\
         pending w' = delete k (pending w)
    else dispatched w' = dispatched w ++ [p] /\
         pending w' = delete k (pending w) ++ [timeout_checkAndResolve 1000].
Proof.
  intros Hp Hgate Hc Hb Hs. unfold step. rewrite Hp. eexists. split; [reflexivity|].
  unfold settle, onFulfilled. rewrite Hs.
  cbn [this with_this unschedule chunk set_chunkCount]. rewrite Hc.
  cbn [this with_this blob set_lastIndex set_chunkCount caught]. rewrite Hb.
  cbn [allChunksReceived lastIndex set_lastIndex set_chunkCount].
  destruct (allChunksReceived (this w) && _).
  - cbn. rewrite <- app_assoc. repeat split; reflexivity.
  - unfold sendChunks.
    change (gate_closed _) with (gate_closed (this w)). rewrite Hgate.
    cbn. repeat split; reflexivity.
Qed.

(** X15. With the gate open, a success status advances the cursor by the
    size of the stored chunk and counts the chunk, leaving the attempt
    counter alone.  If the source is complete and the cursor has reached
    its end, [success] is dispatched, then the progress event, and
    nothing is scheduled; otherwise only the progress event is
    dispatched and one timer of [getChunk] is scheduled for the next
    chunk. *)
Theorem success_response_finishes_or_continues
    (w : World) (k : nat) (options : XhrUrlConfig) (c b : Blob) (statusCode : Z) :
  pending w !! k = Some (xhr_request options) ->
  gate_closed (this w) = false ->
  chunk (this w) = Some c ->
  blob (this w) = Some b ->
  includes SUCCESSFUL_CHUNK_UPLOAD_CODES statusCode = true ->
  exists w',
    step w (request_settles k (Response statusCode)) = Some w' /\
    lastIndex (this w') = lastIndex (this w) + blob_size c /\
    chunkCount (this w') = chunkCount (this w) + 1 /\
    attemptCount (this w') = attemptCount (this w) /\
    requests w' = requests w /\
    let p := progress (percentProgress (lastIndex (this w) + blob_size c) (blob_size b)) in
    if allChunksReceived (this w) && (blob_size b <=? lastIndex (this w) + blob_size c)
    then dispatched w' = dispatched w ++ [success; p] /\
         pending w' = delete k (pending w)
    else dispatched w' = dispatched w ++ [p] /\
         pending w' = delete k (pending w) ++ [timeout_checkAndResolve 1000].
Proof. exact (success_settles w k options c b statusCode). Qed.

Lemma success_response_finishes_or_continues_witness :
  exists w options,
    createUpload_then (example_options 256 5) (small_file_ready ++ [timer_fires 0%nat])
      = Some w /\
    pending w !! 0%nat = Some (xhr_request options) /\
    exists w',
      step w (request_settles 0%nat (Response 200)) = Some w' /\
      lastIndex (this w') = lastIndex (this w) + blob_size three_bytes /\
      chunkCount (this w') = chunkCount (this w) + 1 /\
      attemptCount (this w') = attemptCount (this w) /\
      requests w' = requests w /\
      let p := progress (percentProgress (lastIndex (this w) + blob_size three_bytes)
                           (blob_size three_bytes)) in
      if allChunksReceived (this w)
         && (blob_size three_bytes <=? lastIndex (this w) + blob_size three_bytes)
      then dispatched w' = dispatched w ++ [success; p] /\
           pending w' = delete 0%nat (pending w)
      else dispatched w' = dispatched w ++ [p] /\
           pending w' = delete 0%nat (pending w) ++ [timeout_checkAndResolve 1000].
Proof.
  eexists _, _.
  split; [vm_compute; reflexivity|].
  split; [vm_compute; reflexivity|].
  eapply (success_response_finishes_or_continues _ 0%nat _ three_bytes three_bytes 200);
    reflexivity.
Defined.

(** X14. With one request in flight and the gate open, a status that is
    neither in the success list nor in the list of temporary errors
    dispatches one error event with the chunk number and the attempt
    counter and nothing else: no counter changes, no retry is scheduled,
    and since nothing is pending any more no timer can fire and no
    request can settle afterwards, whatever the number of attempts. *)
Theorem fatal_status_stops_the_upload (w : World) (r : XhrUrlConfig) (statusCode : Z) :
  pending w = [xhr_request r] ->
  gate_closed (this w) = false ->
  includes SUCCESSFUL_CHUNK_UPLOAD_CODES statusCode = false ->
  includes TEMPORARY_ERROR_CODES statusCode = false ->
  exists w',
    step w (request_settles 0%nat (Response statusCode)) = Some w' /\
    this w' = this w /\
    requests w' = requests w /\
    pending w' = [] /\
    dispatched w' =
      dispatched w
      ++ [error_status ("Server responded with " +:+ pretty statusCode +:+ ". Stopping upload.")
            (chunkCount (this w)) (attemptCount (this w))] /\
    (forall k, step w' (timer_fires k) = None) /\
    (forall k res, step w' (request_settles k res) = None).
Proof.
  intros Hp Hgate Hs Ht. unfold step at 1. rewrite Hp.
  change ([xhr_request r] !! 0%nat) with (Some (xhr_request r)). cbv beta iota.
  unfold settle, onFulfilled. rewrite Hs, Ht.
  change (this (unschedule 0 w)) with (this w). rewrite Hgate.
  eexists. split; [reflexivity|].
  cbn [caught this requests pending dispatched dispatch unschedule]. rewrite Hp.
  repeat split; intros; unfold step; cbn [pending dispatch unschedule];
    rewrite ?Hp; reflexivity.
Qed.

Lemma fatal_status_stops_the_upload_witness :
  exists w r,
    createUpload_then (example_options 256 5) (small_file_ready ++ [timer_fires 0%nat])
      = Some w /\
    pending w = [xhr_request r] /\
    exists w',
      step w (request_settles 0%nat (Response 400)) = Some w' /\
      this w' = this w /\
      requests w' = requests w /\
      pending w' = [] /\
      dispatched w' =
        dispatched w
        ++ [error_status ("Server responded with " +:+ pretty 400 +:+ ". Stopping upload.")
              (chunkCount (this w)) (attemptCount (this w))] /\
      (forall k, step w' (timer_fires k) = None) /\
      (forall k res, step w' (request_settles k res) = None).
Proof.
  eexists _, _.
  split; [vm_compute; reflexivity|].
  split; [reflexivity|].
  eapply (fatal_status_stops_the_upload _ _ 400);
    [reflexivity|reflexivity|reflexivity|reflexivity].
Defined.

(** ** A whole upload *)

Lemma blob_slice_all (b : Blob) : blob_slice b 0 (blob_size b) = b.
Proof.
  pose proof (blob_size_nonneg b).
  rewrite blob_slice_to_end by lia. reflexivity.
Qed.

(** X18. A source smaller than 256 KiB that is added in one piece and
    finished is uploaded as one chunk: the only request has the whole
    source as its body and the range 0 to size-1 of size, goes to the
    endpoint given, and on a success status the events are attempt,
    success and progress, the cursor is the size of the source and
    nothing is left scheduled. *)
Theorem small_finished_source_is_one_chunk
    (hasWindow : bool) (options : IOptions) (s : string) (b : Blob)
    (statusCode : Z) (w0 : World) :
  opt_endpoint options = EndpointString s ->
  constructor hasWindow options = inr w0 ->
  blob_size b < MIN_CHUNK_SIZE ->
  includes SUCCESSFUL_CHUNK_UPLOAD_CODES statusCode = true ->
  exists w r,
    run w0 [run_reaction 0%nat; call_addChunk b; call_finish; timer_fires 0%nat;
            request_settles 0%nat (Response statusCode)] = Some w /\
    requests w = [r] /\
    body r = b /\
    content_range r
      = Some ("bytes " +:+ pretty 0 +:+ "-" +:+ pretty (blob_size b - 1)
              +:+ "/" +:+ pretty (blob_size b)) /\
    url r = Some s /\
    dispatched w = [attempt 0 (js_div (blob_size b) 1024); success;
                    progress (percentProgress (blob_size b) (blob_size b))] /\
    pending w = [] /\
    lastIndex (this w) = blob_size b.
Proof.
  intros Hend Hnew Hsmall Hs.
  unfold constructor in Hnew.
  destruct (validateOptions (initial_fields options)); [discriminate|].
  injection Hnew as <-. unfold getEndpoint_then.
  cbn [this endpoint initial_fields]. rewrite Hend.
  pose proof (blob_size_nonneg b) as Hpos.
  set (o0 := set_endpointValue (Some s) (initial_fields options)).
  set (w1 := {| this := o0; dispatched := []; pending := [timeout_checkAndResolve 1000];
                requests := []; window := hasWindow |}).
  set (w3 := with_this finish (with_this (addChunk b) w1)).
  set (r := {| xhr_headers :=
                 <["Content-Range" :=
                     "bytes " +:+ pretty 0 +:+ "-" +:+ pretty (0 + blob_size b - 1)
                     +:+ "/" +:+ pretty (blob_size b)]>
                   (<["Content-Type" := "application/octet-stream"]> (headers o0));
               url := Some s; method := "PUT"; body := b |}).
  assert (Hsel : checkAndResolve (this w3) = Some (set_chunk (Some b) (this w3))).
  { unfold checkAndResolve. cbn. apply Z.ltb_lt in Hsmall.
    rewrite Z.sub_0_r, Hsmall, Z.add_0_l, blob_slice_all. reflexivity. }
  assert (Hsend : step w3 (timer_fires 0%nat) =
                  Some (xhr r (dispatch (attempt 0 (js_div (blob_size b) 1024))
                                 (with_this (fun _ => set_chunk (Some b) (this w3))
                                    (unschedule 0 w3)))))
    by exact (poll_timer_sends w3 1000 [] _ r eq_refl Hsel eq_refl).
  set (w4 := xhr r (dispatch (attempt 0 (js_div (blob_size b) 1024))
                      (with_this (fun _ => set_chunk (Some b) (this w3))
                         (unschedule 0 w3)))) in *.
  destruct (success_settles w4 0%nat r b b statusCode
              eq_refl eq_refl eq_refl eq_refl Hs)
    as (w5 & Hstep & Hidx & _ & _ & Hreq & Hdone).
  replace (allChunksReceived (this w4) && (blob_size b <=? lastIndex (this w4) + blob_size b))
    with true in Hdone
    by (symmetry; apply andb_true_intro; split; [reflexivity|apply Z.leb_le; cbn; lia]).
  destruct Hdone as [Hev Hpend].
  exists w5, r.
  split.
  { change (run _ _) with
      (match step w3 (timer_fires 0%nat) with
       | Some w' => run w' [request_settles 0%nat (Response statusCode)]
       | None => None
       end).
    rewrite Hsend. cbn [run]. rewrite Hstep. reflexivity. }
  rewrite Hreq, Hev, Hpend, Hidx.
  split; [reflexivity|]. split; [reflexivity|].
  split; [unfold content_range, r; cbn [xhr_headers]; rewrite lookup_insert_eq; reflexivity|].
  split; [reflexivity|]. repeat split; reflexivity.
Qed.


Lemma small_finished_source_is_one_chunk_witness :
  exists w0,
    opt_endpoint (example_options 256 5) = EndpointString "https://storage.example/upload" /\
    constructor true (example_options 256 5) = inr w0 /\
    blob_size three_bytes < MIN_CHUNK_SIZE /\
    includes SUCCESSFUL_CHUNK_UPLOAD_CODES 200 = true /\
    exists w r,
      run w0 [run_reaction 0%nat; call_addChunk three_bytes; call_finish; timer_fires 0%nat;
              request_settles 0%nat (Response 200)] = Some w /\
      requests w = [r] /\
      body r = three_bytes /\
      content_range r
        = Some ("bytes " +:+ pretty 0 +:+ "-" +:+ pretty (blob_size three_bytes - 1)
                +:+ "/" +:+ pretty (blob_size three_bytes)) /\
      url r = Some "https://storage.example/upload" /\
      dispatched w = [attempt 0 (js_div (blob_size three_bytes) 1024); success;
                      progress (percentProgress (blob_size three_bytes)
                                  (blob_size three_bytes))] /\
      pending w = [] /\
      lastIndex (this w) = blob_size three_bytes.
Proof.
  eexists.
  split; [reflexivity|].
  split; [vm_compute; reflexivity|].
  split; [reflexivity|].
  split; [reflexivity|].
  eapply (small_finished_source_is_one_chunk true (example_options 256 5));
    [reflexivity|vm_compute; reflexivity|reflexivity|reflexivity].
Defined.

(** ** The endpoint and the headers *)

Lemma poll_timer_sends_at (w : World) (k : nat) (ms : Z) (o : UpChunk)
    (r : XhrUrlConfig) :
  pending w !! k = Some (timeout_checkAndResolve ms) ->
  checkAndResolve (this w) = Some o ->
  request_of o = Some r ->
  step w (timer_fires k) =
    Some (xhr r (dispatch (attempt (chunkCount o) (js_div (blob_size (body r)) 1024))
                   (with_this (fun _ => o) (unschedule k w)))).
Proof.
  intros Hp Hsel Hr. unfold step. rewrite Hp.
  unfold timer_checkAndResolve.
  change (this (unschedule k w)) with (this w). rewrite Hsel.
  rewrite sendChunk_request_of.
  change (this (with_this (fun _ => o) (unschedule k w))) with o.
  rewrite Hr. reflexivity.
Qed.

(** X20. With an endpoint given as a function, [pause()] followed by
    [resume()] enters the loop without waiting for the endpoint: when a
    chunk can be selected before the promise has resolved, the request is
    sent with no URL. *)
Theorem resume_before_endpoint_sends_without_url
    (hasWindow : bool) (options : IOptions) (b : Blob) (w0 : World) :
  opt_endpoint options = EndpointFunction ->
  constructor hasWindow options = inr w0 ->
  blob_size b < MIN_CHUNK_SIZE ->
  exists w r,
    run w0 [call_pause; call_resume; call_addChunk b; call_finish; timer_fires 1%nat]
      = Some w /\
    requests w = [r] /\
    url r = None /\
    body r = b /\
    pending w = [endpoint_pending; xhr_request r].
Proof.
  intros Hend Hnew Hsmall.
  unfold constructor in Hnew.
  destruct (validateOptions (initial_fields options)); [discriminate|].
  injection Hnew as <-. unfold getEndpoint_then.
  cbn [this endpoint initial_fields]. rewrite Hend.
  pose proof (blob_size_nonneg b) as Hpos.
  set (o0 := initial_fields options).
  set (w2 := {| this := set_paused false (pause o0); dispatched := [];
                pending := [endpoint_pending; timeout_checkAndResolve 1000];
                requests := []; window := hasWindow |}).
  set (w4 := with_this finish (with_this (addChunk b) w2)).
  set (r := {| xhr_headers :=
                 <["Content-Range" :=
                     "bytes " +:+ pretty 0 +:+ "-" +:+ pretty (0 + blob_size b - 1)
                     +:+ "/" +:+ pretty (blob_size b)]>
                   (<["Content-Type" := "application/octet-stream"]> (headers o0));
               url := None; method := "PUT"; body := b |}).
  assert (Hsel : checkAndResolve (this w4) = Some (set_chunk (Some b) (this w4))).
  { unfold checkAndResolve. cbn. apply Z.ltb_lt in Hsmall.
    rewrite Z.sub_0_r, Hsmall, Z.add_0_l, blob_slice_all. reflexivity. }
  assert (Hsend : step w4 (timer_fires 1%nat) =
                  Some (xhr r (dispatch (attempt 0 (js_div (blob_size b) 1024))
                                 (with_this (fun _ => set_chunk (Some b) (this w4))
                                    (unschedule 1 w4)))))
    by exact (poll_timer_sends_at w4 1%nat 1000 _ r eq_refl Hsel eq_refl).
  eexists _, r. split.
  { change (run _ _) with
      (match step w4 (timer_fires 1%nat) with
       | Some w' => run w' []
       | None => None
       end).
    rewrite Hsend. reflexivity. }
  repeat split; reflexivity.
Qed.

Lemma resume_before_endpoint_sends_without_url_witness :
  exists w0,
    constructor true
      {| opt_endpoint := EndpointFunction; opt_headers := None;
         opt_maxChunkSize := None; opt_attempts := None;
         opt_delayBeforeAttempt := None |} = inr w0 /\
    blob_size three_bytes < MIN_CHUNK_SIZE /\
    exists w r,
      run w0 [call_pause; call_resume; call_addChunk three_bytes; call_finish;
              timer_fires 1%nat] = Some w /\
      requests w = [r] /\
      url r = None /\
      body r = three_bytes /\
      pending w = [endpoint_pending; xhr_request r].
Proof.
  eexists.
  split; [vm_compute; reflexivity|].
  split; [reflexivity|].
  eapply (resume_before_endpoint_sends_without_url true
            {| opt_endpoint := EndpointFunction; opt_headers := None;
               opt_maxChunkSize := None; opt_attempts := None;
               opt_delayBeforeAttempt := None |});
    [reflexivity|vm_compute; reflexivity|reflexivity].
Defined.

Lemma step_request_built (w w' : World) (i : Input) :
  step w i = Some w' ->
  headers (this w') = headers (this w) /\
  (requests w' = requests w \/
   exists r, requests w' = requests w ++ [r] /\
             built_by_sendChunk (headers (this w)) (endpointValue (this w)) r).
Proof.
  intros H. step_cases H;
    try match goal with
    | Hc : checkAndResolve _ = Some _ |- _ =>
        apply checkAndResolve_selects in Hc as (? & ? & ? & -> & _)
    end;
    simpl in *; repeat (case_match; simpl in *; simplify_eq);
    (split; [reflexivity|]); try (left; reflexivity).
  all: right; eexists; split; [reflexivity|].
  all: unfold built_by_sendChunk; cbn [url method xhr_headers].
  all: split; [reflexivity|]; split; [reflexivity|].
  all: split; [rewrite lookup_insert_ne by discriminate; apply lookup_insert_eq|].
  all: split; [rewrite lookup_insert_eq; eexists; reflexivity|].
  all: intros name Hrange Htype; rewrite !lookup_insert_ne by congruence; reflexivity.
Qed.

Lemma step_endpoint_settled (w w' : World) (i : Input) (s : string) :
  step w i = Some w' ->
  endpointValue (this w) = Some s ->
  endpoint_pending ∉ pending w ->
  endpointValue (this w') = Some s /\ endpoint_pending ∉ pending w'.
Proof.
  intros H Hs Hp.
  assert (Hd : forall k, endpoint_pending ∉ delete k (pending w))
    by (intros k Hin; apply Hp; eapply list_elem_of_delete_inv; exact Hin).
  assert (Hnew : forall (l : list Task) (t : Task),
             endpoint_pending ∉ l -> t <> endpoint_pending -> endpoint_pending ∉ l ++ [t]).
  { intros l t Hl Ht [Hin|Hin%list_elem_of_singleton]%elem_of_app; [exact (Hl Hin)|].
    apply Ht. symmetry. exact Hin. }
  destruct i.
  7: { unfold step in H. destruct (pending w !! i) as [[]|] eqn:Hk; try discriminate.
       exfalso. apply Hp. eapply list_elem_of_lookup_2. exact Hk. }
  all: step_cases H;
    try match goal with
    | Hc : checkAndResolve _ = Some _ |- _ =>
        apply checkAndResolve_selects in Hc as (? & ? & ? & -> & _)
    end;
    simpl in *; repeat (case_match; simpl in *; simplify_eq);
    (split; [assumption|]);
    repeat (apply Hnew; [|discriminate]); first [exact Hp | apply Hd].
Qed.

Lemma step_endpointValue (w w' : World) (i : Input) :
  step w i = Some w' ->
  endpointValue (this w') = endpointValue (this w) \/
  exists k v, i = endpoint_resolves k v /\ endpointValue (this w') = Some v.
Proof.
  intros H. destruct i.
  7: { right. exists i, value. split; [reflexivity|].
       unfold step in H. destruct (pending w !! i) as [[]|]; try discriminate.
       injection H as <-. unfold sendChunks.
       destruct (gate_closed _); reflexivity. }
  all: left; step_cases H;
    try match goal with
    | Hc : checkAndResolve _ = Some _ |- _ =>
        apply checkAndResolve_selects in Hc as (? & ? & ? & -> & _)
    end;
    simpl in *; repeat (case_match; simpl in *; simplify_eq); reflexivity.
Qed.

Lemma run_request_built (w w' : World) (inputs : list Input) (r : XhrUrlConfig) :
  run w inputs = Some w' ->
  r ∈ requests w' ->
  r ∈ requests w \/
  exists u,
    built_by_sendChunk (headers (this w)) u r /\
    (u = endpointValue (this w) \/
     exists k v, endpoint_resolves k v ∈ inputs /\ u = Some v) /\
    (forall s, endpointValue (this w) = Some s -> endpoint_pending ∉ pending w -> u = Some s).
Proof.
  revert w. induction inputs as [|i rest IH]; intros w; simpl.
  - intros [= <-] Hin. left. exact Hin.
  - destruct (step w i) as [w1|] eqn:Hstep; [|discriminate].
    intros Hrun Hin.
    destruct (step_request_built _ _ _ Hstep) as [Hh Hreq].
    destruct (IH _ Hrun Hin) as [Hin1|(u & Hb & Hu & Hs)].
    + destruct Hreq as [Heq|(r0 & Heq & Hb)]; rewrite Heq in Hin1; [left; exact Hin1|].
      apply elem_of_app in Hin1 as [Hin1|Hin1%list_elem_of_singleton]; [left; exact Hin1|].
      subst r0. right. exists (endpointValue (this w)).
      split; [exact Hb|]. split; [left; reflexivity|]. intros s Hv _. exact Hv.
    + right. exists u. rewrite Hh in Hb. split; [exact Hb|]. split.
      * destruct Hu as [->|(k & v & Hkv & ->)].
        -- destruct (step_endpointValue _ _ _ Hstep) as [->|(k & v & -> & ->)];
             [left; reflexivity|].
           right. exists k, v. split; [apply list_elem_of_here|reflexivity].
        -- right. exists k, v. split; [apply list_elem_of_further; exact Hkv|reflexivity].
      * intros s Hv Hp.
        destruct (step_endpoint_settled _ _ _ s Hstep Hv Hp) as [Hv1 Hp1]. auto.
Qed.

(** X21. Every request of a session is a PUT that carries the headers
    given at construction ([{}] when none are given); only
    [Content-Type] (application/octet-stream) and [Content-Range] are set
    by the engine and replace a given header of the same name.  When the
    endpoint is given as a string, the URL of every request is that
    string; when it is given as a function, the URL is missing or a
    value its promise resolved to. *)
Theorem request_keeps_the_given_headers
    (hasWindow : bool) (options : IOptions) (inputs : list Input) (w0 w : World)
    (r : XhrUrlConfig) :
  constructor hasWindow options = inr w0 ->
  run w0 inputs = Some w ->
  r ∈ requests w ->
  method r = "PUT" /\
  xhr_headers r !! "Content-Type" = Some "application/octet-stream" /\
  is_Some (xhr_headers r !! "Content-Range") /\
  (forall name,
     name <> "Content-Range" -> name <> "Content-Type" ->
     xhr_headers r !! name = default ∅ (opt_headers options) !! name) /\
  (forall s, opt_endpoint options = EndpointString s -> url r = Some s) /\
  (opt_endpoint options = EndpointFunction ->
   url r = None \/ exists k v, endpoint_resolves k v ∈ inputs /\ url r = Some v).
Proof.
  intros Hnew Hrun Hin.
  unfold constructor in Hnew.
  destruct (validateOptions (initial_fields options)); [discriminate|].
  injection Hnew as <-.
  destruct (run_request_built _ _ _ _ Hrun Hin) as [Hin0|(u & Hb & Hu & Hs)].
  { unfold getEndpoint_then in Hin0. simpl in Hin0.
    destruct (opt_endpoint options); simpl in Hin0; inversion Hin0. }
  destruct Hb as (Hurl & Hm & Hct & Hcr & Hh).
  split; [exact Hm|]. split; [exact Hct|]. split; [exact Hcr|].
  split.
  { intros name H1 H2. rewrite (Hh name H1 H2).
    unfold getEndpoint_then. simpl. destruct (opt_endpoint options); reflexivity. }
  split.
  - intros s Hend. rewrite Hurl. apply Hs.
    + unfold getEndpoint_then. simpl. rewrite Hend. reflexivity.
    + unfold getEndpoint_then. simpl. rewrite Hend. simpl.
      intros Hp%list_elem_of_singleton. discriminate.
  - intros Hend. rewrite Hurl.
    destruct Hu as [->|Hr]; [left|right; exact Hr].
    unfold getEndpoint_then. simpl. rewrite Hend. reflexivity.
Qed.

Lemma request_keeps_the_given_headers_witness :
  exists w0 w r,
    constructor true options_with_authorization = inr w0 /\
    run w0 (small_file_ready ++ [timer_fires 0%nat]) = Some w /\
    r ∈ requests w /\
    method r = "PUT" /\
    xhr_headers r !! "Content-Type" = Some "application/octet-stream" /\
    is_Some (xhr_headers r !! "Content-Range") /\
    (forall name,
       name <> "Content-Range" -> name <> "Content-Type" ->
       xhr_headers r !! name
       = default ∅ (opt_headers options_with_authorization) !! name) /\
    (forall s,
       opt_endpoint options_with_authorization = EndpointString s -> url r = Some s) /\
    (opt_endpoint options_with_authorization = EndpointFunction ->
     url r = None \/
     exists k v, endpoint_resolves k v ∈ small_file_ready ++ [timer_fires 0%nat]
                 /\ url r = Some v).
Proof.
  eexists _, _, _.
  split; [vm_compute; reflexivity|].
  split; [vm_compute; reflexivity|].
  split; [apply list_elem_of_here|].
  eapply (request_keeps_the_given_headers true options_with_authorization
            (small_file_ready ++ [timer_fires 0%nat]));
    [vm_compute; reflexivity|vm_compute; reflexivity|apply list_elem_of_here].
Defined.
